(** * linkedin-jobs-scraper: a shallow embedding of [scraper.js]

    The development follows the source file top to bottom:

    - JavaScript strings and the three string operations that
      [scrapeJobDetails] chains on the description
      ([replace(/\s+/g, " ")], [replace(/\b(Show more|Show less)\b/g, "")],
      [trim()]);
    - plain objects and [convertToCsv];
    - the browser, the file system and the console as an explicit state
      with an event trace, and [scrapeJobDetails] and [main] in a small
      state-and-exception monad.

    Definitions come first, theorems after. *)

From Stdlib Require Import String Ascii.
From Stdlib Require Import List NArith Bool Arith Lia.
Import ListNotations.

(** ** JavaScript strings *)

(** A JavaScript string is a sequence of UTF-16 code units. *)
Definition code_unit := N.
Definition jsstring := list code_unit.

(** Literals of the source, written as Rocq strings (one code unit per
    ASCII character). *)
Fixpoint js (s : string) : jsstring :=
  match s with
  | EmptyString => []
  | String a r => N_of_ascii a :: js r
  end.

Definition SPACE : code_unit := 32%N.
Definition COMMA : code_unit := 44%N.
Definition QUOTE : code_unit := 34%N.
Definition LF : code_unit := 10%N.

(** The class [\s] of a regular expression, which is also the set of code
    units that [String.prototype.trim] strips (WhiteSpace and
    LineTerminator of ECMAScript): TAB, LF, VT, FF, CR, SP, NBSP, U+1680,
    U+2000..U+200A, U+2028, U+2029, U+202F, U+205F, U+3000, U+FEFF. *)
Definition is_space (c : code_unit) : bool :=
  ((9 <=? c) && (c <=? 13)
   || (c =? 32) || (c =? 160) || (c =? 5760)
   || ((8192 <=? c) && (c <=? 8202))
   || (c =? 8232) || (c =? 8233) || (c =? 8239) || (c =? 8287)
   || (c =? 12288) || (c =? 65279))%N.

(** The class [\w] (no [i] or [u] flag): [A-Za-z0-9_]. *)
Definition is_word (c : code_unit) : bool :=
  ((48 <=? c) && (c <=? 57)
   || (65 <=? c) && (c <=? 90)
   || (c =? 95)
   || (97 <=? c) && (c <=? 122))%N.

(** *** [.replace(/\s+/g, " ")]

    The scan replaces every maximal run of [\s] by one space; [in_run]
    says that the previous code unit belonged to the run being replaced. *)
Fixpoint replace_ws_from (in_run : bool) (s : jsstring) : jsstring :=
  match s with
  | [] => []
  | c :: r =>
      if is_space c
      then (if in_run then replace_ws_from true r
            else SPACE :: replace_ws_from true r)
      else c :: replace_ws_from false r
  end.

Definition replace_whitespace (s : jsstring) : jsstring :=
  replace_ws_from false s.

(** *** [.replace(/\b(Show more|Show less)\b/g, "")] *)

Definition tok_more : jsstring := js "Show more".
Definition tok_less : jsstring := js "Show less".

Fixpoint starts_with (t s : jsstring) : bool :=
  match t, s with
  | [], _ => true
  | _ :: _, [] => false
  | a :: t', b :: s' => (a =? b)%N && starts_with t' s'
  end.

(** Is the code unit at the head of [s] a word character?  Past the end of
    the string there is none. *)
Definition word_at (s : jsstring) : bool :=
  match s with
  | c :: _ => is_word c
  | [] => false
  end.

(** [\b] holds between two positions exactly one of which is a word
    character. *)
Definition boundary (before after : bool) : bool := xorb before after.

(** Does the whole pattern match at the head of [s], when [prev] tells
    whether the code unit before [s] is a word character?  Both
    alternatives are nine code units long, so the closing [\b] sits
    between offsets 8 and 9. *)
Definition token_at (prev : bool) (s : jsstring) : bool :=
  boundary prev (word_at s)
  && (starts_with tok_more s || starts_with tok_less s)
  && boundary (word_at (skipn 8 s)) (word_at (skipn 9 s)).

(** The global replace scans from the left; where the pattern matches, the
    nine matched code units are dropped and the scan resumes after them,
    elsewhere the code unit is kept and the scan moves one position on.
    [skip] counts the code units of the current match still to be dropped;
    [prev] is the word-ness of the previous code unit of the input. *)
Fixpoint remove_from (skip : nat) (prev : bool) (s : jsstring) : jsstring :=
  match s with
  | [] => []
  | c :: r =>
      match skip with
      | S k => remove_from k (is_word c) r
      | O =>
          if token_at prev s
          then remove_from 8 (is_word c) r
          else c :: remove_from 0 (is_word c) r
      end
  end.

Definition replace_tokens (s : jsstring) : jsstring :=
  remove_from 0 false s.

(** *** [.trim()] *)

Fixpoint trimStart (s : jsstring) : jsstring :=
  match s with
  | [] => []
  | c :: r => if is_space c then trimStart r else s
  end.

Definition trimEnd (s : jsstring) : jsstring := rev (trimStart (rev s)).

Definition trim (s : jsstring) : jsstring := trimEnd (trimStart s).

(** *** Lines 41-44 of [scrapeJobDetails]: the description clean-up *)
Definition normalizeDescription (s : jsstring) : jsstring :=
  trim (replace_tokens (replace_whitespace s)).

(** *** Predicates on strings used in the statements *)

(** No position of [s] at which the token pattern matches. *)
Fixpoint token_free_from (prev : bool) (s : jsstring) : bool :=
  match s with
  | [] => true
  | c :: r => negb (token_at prev s) && token_free_from (is_word c) r
  end.

Definition token_free (s : jsstring) : bool := token_free_from false s.

(** Every white-space code unit of [s] is the plain space. *)
Definition plain_spaces (s : jsstring) : Prop :=
  Forall (fun c => is_space c = true -> c = SPACE) s.

(** [t] occurs in [s] as a contiguous substring. *)
Fixpoint occurs_in (t s : jsstring) : bool :=
  starts_with t s
  || match s with
     | [] => false
     | _ :: r => occurs_in t r
     end.

(** ** Plain objects *)

Fixpoint jsstring_eqb (a b : jsstring) : bool :=
  match a, b with
  | [], [] => true
  | x :: a', y :: b' => (x =? y)%N && jsstring_eqb a' b'
  | _, _ => false
  end.

(** A record is a plain object (created by an object literal, as [job] is
    in [scrapeJobDetails]) whose own enumerable properties hold strings.
    It is kept as the list of those properties in property order, the
    order [Object.keys] and [Object.entries] report. *)
Definition object := list (jsstring * jsstring).

Definition Object_keys (o : object) : list jsstring := map fst o.
Definition Object_entries (o : object) : list (jsstring * jsstring) := o.

Fixpoint own_property (o : object) (k : jsstring) : option jsstring :=
  match o with
  | [] => None
  | (k', v) :: o' => if jsstring_eqb k' k then Some v else own_property o' k
  end.

(** What a property read can yield on such an object. *)
Inductive value : Type :=
  | VUndefined
  | VString (s : jsstring)
  | VBuiltin (name : jsstring)   (* a built-in function object *)
  | VPrototype.                  (* the object [Object.prototype] *)

(** The properties every plain object inherits from [Object.prototype]. *)
Definition prototype_methods : list jsstring :=
  map js [ "__defineGetter__"; "__defineSetter__"; "hasOwnProperty";
           "__lookupGetter__"; "__lookupSetter__"; "isPrototypeOf";
           "propertyIsEnumerable"; "toString"; "valueOf";
           "toLocaleString" ]%string.

Definition Object_prototype (k : jsstring) : value :=
  if jsstring_eqb k (js "constructor") then VBuiltin (js "Object")
  else if jsstring_eqb k (js "__proto__") then VPrototype
  else if existsb (jsstring_eqb k) prototype_methods then VBuiltin k
  else VUndefined.

(** [o[k]]: the own property if there is one, else what the prototype
    chain gives. *)
Definition get (o : object) (k : jsstring) : value :=
  match own_property o k with
  | Some v => VString v
  | None => Object_prototype k
  end.

(** [o[k] = v]: an existing own property keeps its place, a new one goes
    last. *)
Fixpoint set (o : object) (k v : jsstring) : object :=
  match o with
  | [] => [(k, v)]
  | (k', v') :: o' =>
      if jsstring_eqb k' k then (k', v) :: o' else (k', v') :: set o' k v
  end.

(** The string a template literal substitutes for a value; a built-in
    function prints as V8 prints it. *)
Definition to_text (v : value) : jsstring :=
  match v with
  | VUndefined => js "undefined"
  | VString s => s
  | VBuiltin name => js "function " ++ name ++ js "() { [native code] }"
  | VPrototype => js "[object Object]"
  end.

(** [Array.prototype.join] on an array of strings. *)
Fixpoint join (sep : jsstring) (l : list jsstring) : jsstring :=
  match l with
  | [] => []
  | x :: r =>
      match r with
      | [] => x
      | _ :: _ => x ++ sep ++ join sep r
      end
  end.

(** ** Errors and results *)

Inductive error : Type :=
  | LaunchError                      (* puppeteer.launch rejected *)
  | NavigationError (url : jsstring) (* page.goto rejected *)
  | NoElementError (selector : jsstring)
      (* page.$eval: no element matches the selector *)
  | TypeError (msg : jsstring)
  | WriteError (msg : jsstring).     (* fs.writeFile rejected *)

Inductive result (A : Type) : Type :=
  | Ok (a : A)
  | Throw (e : error).
Arguments Ok {A} a.
Arguments Throw {A} e.

Definition error_text (e : error) : jsstring :=
  match e with
  | LaunchError => js "Error: Failed to launch the browser process!"
  | NavigationError url => js "Error: net::ERR_FAILED at " ++ url
  | NoElementError sel =>
      js "Error: Error: failed to find element matching selector "
      ++ [QUOTE] ++ sel ++ [QUOTE]
  | TypeError msg => js "TypeError: " ++ msg
  | WriteError msg => js "Error: " ++ msg
  end.

(** ** [convertToCsv] (lines 54-64) *)

Definition quoted (v : value) : jsstring := [QUOTE] ++ to_text v ++ [QUOTE].

(** The body of the [forEach] callback: one more line pushed on [csv]. *)
Definition push_row (keys : list jsstring) (csv : list jsstring)
    (row : object) : list jsstring :=
  let values := map (fun key => quoted (get row key)) keys in
  csv ++ [join [COMMA] values].

(** [data[0]] of an empty array is [undefined], on which [Object.keys]
    throws. *)
Definition convertToCsv (data : list object) : result jsstring :=
  match data with
  | [] => Throw (TypeError (js "Cannot convert undefined or null to object"))
  | first :: _ =>
      let keys := Object_keys first in
      let csv := [join [COMMA] keys] in
      let csv := fold_left (push_row keys) data csv in
      Ok (join [LF] csv)
  end.

(** The lines of a document: its pieces between line feeds. *)
Fixpoint lines_from (cur : jsstring) (s : jsstring) : list jsstring :=
  match s with
  | [] => [rev cur]
  | c :: r =>
      if (c =? LF)%N then rev cur :: lines_from [] r
      else lines_from (c :: cur) r
  end.

Definition lines (s : jsstring) : list jsstring := lines_from [] s.

(** ** The world outside the program *)

(** An element of a rendered page, with the two properties the program
    reads. *)
Record element : Type := Element {
  textContent : jsstring;
  href : jsstring
}.

(** A rendered page: for every selector, the elements that match it, in
    document order. *)
Definition document := jsstring -> list element.

Definition blank : document := fun _ => [].

(** What the run meets: whether the browser starts, what every address
    serves ([None]: the navigation fails; an address serves the same page
    every time), and whether a file can be written ([Some msg]: the write
    fails with that message).  Opening the tab, the delay, closing the
    browser and the console are taken not to fail. *)
Record world : Type := World {
  launch_ok : bool;
  serve : jsstring -> option document;
  write_fault : jsstring -> jsstring -> option jsstring
}.

(** What the run does to the outside, in order. *)
Inductive event : Type :=
  | LoaderStarted                       (* setInterval of showLoader *)
  | LoaderCleared                       (* clearInterval *)
  | BrowserLaunched
  | PageOpened
  | Navigated (url : jsstring)
  | Waited (ms : N)
  | BrowserClosed
  | FileWritten (path data : jsstring)
  | ConsoleLog (msg : jsstring)
  | ConsoleError (msg : jsstring).

(** The state threaded through the run: the page shown in the single tab
    and the events so far, oldest first. *)
Record state : Type := State {
  current : document;
  trace : list event
}.

Definition initial : state := State blank [].

(** ** A state-and-exception monad for the asynchronous code

    Every [await] is a bind; a rejected promise and a [throw] are [Throw],
    which skips the rest of the sequence and keeps the state reached. *)
Definition M (A : Type) : Type := world -> state -> result A * state.

Definition ret {A} (a : A) : M A := fun _ st => (Ok a, st).

Definition throw {A} (e : error) : M A := fun _ st => (Throw e, st).

Definition bind {A B} (m : M A) (k : A -> M B) : M B :=
  fun w st =>
    match m w st with
    | (Ok a, st') => k a w st'
    | (Throw e, st') => (Throw e, st')
    end.

(** [try { body } catch (error) { handler }] *)
Definition try_catch {A} (body : M A) (handler : error -> M A) : M A :=
  fun w st =>
    match body w st with
    | (Ok a, st') => (Ok a, st')
    | (Throw e, st') => handler e w st'
    end.

Definition emit (e : event) : M unit :=
  fun _ st => (Ok tt, State (current st) (trace st ++ [e])).

Definition lift {A} (r : result A) : M A := fun _ st => (r, st).

Declare Scope js_scope.
Delimit Scope js_scope with js_m.
Notation "x <- m ;; k" := (bind m (fun x => k))
  (at level 61, m at next level, right associativity) : js_scope.
Notation "m ;; k" := (bind m (fun _ => k))
  (at level 61, right associativity) : js_scope.
Open Scope js_scope.

(** *** The calls into puppeteer, fs and console *)

Definition puppeteer_launch : M unit :=
  fun w st =>
    if launch_ok w then emit BrowserLaunched w st else (Throw LaunchError, st).

Definition browser_newPage : M unit := emit PageOpened.

Definition browser_close : M unit := emit BrowserClosed.

Definition page_goto (url : jsstring) : M unit :=
  fun w st =>
    match serve w url with
    | Some d => (Ok tt, State d (trace st ++ [Navigated url]))
    | None => (Throw (NavigationError url), st)
    end.

Definition page_waitForTimeout (ms : N) : M unit := emit (Waited ms).

(** [page.$eval(selector, f)]: [f] on the first element that matches; the
    promise is rejected when none does. *)
Definition page_eval {A} (selector : jsstring) (f : element -> A) : M A :=
  fun _ st =>
    match current st selector with
    | el :: _ => (Ok (f el), st)
    | [] => (Throw (NoElementError selector), st)
    end.

(** [page.$$eval(selector, f)]: [f] on the array of all the elements that
    match, which may be empty. *)
Definition page_evalAll {A} (selector : jsstring) (f : list element -> A)
    : M A :=
  fun _ st => (Ok (f (current st selector)), st).

Definition fs_writeFile (path data : jsstring) : M unit :=
  fun w st =>
    match write_fault w path data with
    | None => emit (FileWritten path data) w st
    | Some msg => (Throw (WriteError msg), st)
    end.

Definition console_log (msg : jsstring) : M unit := emit (ConsoleLog msg).

Definition console_error (msg : jsstring) : M unit := emit (ConsoleError msg).

(** ** [showLoader] (lines 8-16)

    The interval is started; what its callback prints between two awaits
    is not part of the model. *)
Definition showLoader : M unit := emit LoaderStarted.

Definition clearInterval : M unit := emit LoaderCleared.

(** ** [scrapeJobDetails] (lines 24-47) *)

Definition selectors : object :=
  [ (js "title", js "h1.topcard__title");
    (js "company", js "[href^='https://www.linkedin.com/company/']");
    (js "location", js ".topcard__flavor.topcard__flavor--bullet");
    (js "description", js "section.show-more-less-html") ].

(** The [for ... of Object.entries(selectors)] loop of lines 37-39. *)
Fixpoint fill_fields (entries : list (jsstring * jsstring)) (job : object)
    : M object :=
  match entries with
  | [] => ret job
  | (key, selector) :: rest =>
      text <- page_eval selector (fun el => trim (textContent el)) ;;
      fill_fields rest (set job key text)
  end.

Definition scrapeJobDetails (jobLink : jsstring) : M object :=
  page_goto jobLink ;;
  page_waitForTimeout 5000 ;;
  job <- fill_fields (Object_entries selectors) [] ;;
  match get job (js "description") with
  | VString description =>
      ret (set job (js "description") (normalizeDescription description))
  | _ => throw (TypeError (js "job.description.replace is not a function"))
  end.

(** ** [main] (lines 69-100) *)

Definition searchTerm : jsstring := js "Web Developer".

Definition searchUrl : jsstring :=
  js "https://www.linkedin.com/jobs/search/?keywords=" ++ searchTerm.

Definition linkSelector : jsstring := js "a.base-card__full-link".

(** Line 78. *)
Definition collectJobLinks : M (list jsstring) :=
  page_evalAll linkSelector (fun links => map href links).

(** The [for ... of jobLinks] loop of lines 81-84; [jobDetails] is the
    array built so far. *)
Fixpoint scrapeAll (jobLinks : list jsstring) (jobDetails : list object)
    : M (list object) :=
  match jobLinks with
  | [] => ret jobDetails
  | jobLink :: rest =>
      details <- scrapeJobDetails jobLink ;;
      scrapeAll rest (jobDetails ++ [details])
  end.

Definition outputPath : jsstring := js "jobsData.csv".

Definition successMessage : jsstring :=
  [LF; SPACE; 27%N] ++ js "[32mData scraped and saved to jobsData.csv"
  ++ [27%N] ++ js "[0m".

Definition failureMessage (e : error) : jsstring :=
  [LF] ++ js " Error writing to jobsData.csv: " ++ error_text e.

(** The body of the [try] block, lines 91-96. *)
Definition saveCsv (jobDetails : list object) : M unit :=
  csvData <- lift (convertToCsv jobDetails) ;;
  fs_writeFile outputPath csvData ;;
  console_log successMessage.

(** The [try ... catch] statement, lines 90-99. *)
Definition exportJobs (jobDetails : list object) : M unit :=
  try_catch (saveCsv jobDetails)
            (fun error => console_error (failureMessage error)).

Definition main : M unit :=
  showLoader ;;
  puppeteer_launch ;;
  browser_newPage ;;
  page_goto searchUrl ;;
  jobLinks <- collectJobLinks ;;
  jobDetails <- scrapeAll jobLinks [] ;;
  browser_close ;;
  clearInterval ;;
  exportJobs jobDetails.

(** A run of the program from a fresh process. *)
Definition run (w : world) : result unit * list event :=
  let (r, st) := main w initial in (r, trace st).

Definition outcome (w : world) : result unit := fst (run w).
Definition events (w : world) : list event := snd (run w).

(** ** Job records and sample pages *)

Definition jobRecord (title company location description : jsstring)
    : object :=
  [ (js "title", title); (js "company", company);
    (js "location", location); (js "description", description) ].

Definition fieldNames : list jsstring :=
  [js "title"; js "company"; js "location"; js "description"].

Definition csvHeader : jsstring := js "title,company,location,description".

Definition is_job_record (o : object) : Prop :=
  exists t c l d, o = jobRecord t c l d.

(** The row of a record: its values in property order, each between
    double quotes, joined by commas. *)
Definition quoted_values (o : object) : jsstring :=
  join [COMMA] (map (fun kv => [QUOTE] ++ snd kv ++ [QUOTE]) o).

(** No value of the record holds a line feed. *)
Definition single_line_values (o : object) : Prop :=
  Forall (fun kv => ~ In LF (snd kv)) o.

(** A page built from a table of selectors. *)
Fixpoint page_of (table : list (jsstring * list element)) : document :=
  fun selector =>
    match table with
    | [] => []
    | (s, els) :: rest =>
        if jsstring_eqb s selector then els else page_of rest selector
    end.

Definition text_element (t : string) : element := Element (js t) [].
Definition anchor (url : string) : element := Element [] (js url).

Definition detailPage (t c l d : string) : document :=
  page_of [ (js "h1.topcard__title", [text_element t]);
            (js "[href^='https://www.linkedin.com/company/']", [text_element c]);
            (js ".topcard__flavor.topcard__flavor--bullet", [text_element l]);
            (js "section.show-more-less-html", [text_element d]) ].

(** A site given as a table of addresses. *)
Fixpoint site_of (table : list (jsstring * document)) (url : jsstring)
    : option document :=
  match table with
  | [] => None
  | (u, d) :: rest => if jsstring_eqb u url then Some d else site_of rest url
  end.

(** ** Auxiliary notions for the statements *)

(** The two alternatives of the pattern. *)
Definition is_token (t : jsstring) : Prop := t = tok_more \/ t = tok_less.

(** [w] is not empty and its last code unit is not a word character. *)
Definition ends_nonword (w : jsstring) : Prop :=
  exists w' d, w = w' ++ [d] /\ is_word d = false.

(** [s] does not start with white space. *)
Definition starts_clean (s : jsstring) : bool :=
  match s with
  | [] => true
  | c :: _ => negb (is_space c)
  end.

(** The line [convertToCsv] pushes for [row]. *)
Definition row_text (keys : list jsstring) (row : object) : jsstring :=
  join [COMMA] (map (fun key => quoted (get row key)) keys).

(** Where the run stands after a detail page has loaded and the fixed
    delay has passed. *)
Definition loaded (st : state) (url : jsstring) (page : document) : state :=
  State page ((trace st ++ [Navigated url]) ++ [Waited 5000]).

(** The events of the extraction loop. *)
Definition browsing (e : event) : bool :=
  match e with
  | Navigated _ | Waited _ => true
  | _ => false
  end.

(** The events of a run up to the loaded search page. *)
Definition prelude : list event :=
  [LoaderStarted; BrowserLaunched; PageOpened; Navigated searchUrl].

(** Events that can only come before the browser is closed. *)
Definition before_close (e : event) : bool :=
  match e with
  | LoaderStarted | BrowserLaunched | PageOpened
  | Navigated _ | Waited _ => true
  | _ => false
  end.

(** What the export leaves on the trace. *)
Definition export_events (w : world) (jobDetails : list object)
    (post : list event) : Prop :=
  (exists csv,
     convertToCsv jobDetails = Ok csv
     /\ write_fault w outputPath csv = None
     /\ post = [FileWritten outputPath csv; ConsoleLog successMessage])
  \/ (exists e, post = [ConsoleError (failureMessage e)]).

(** Sample worlds. *)
Definition searchPage (urls : list string) : document :=
  page_of [(linkSelector, map anchor urls)].

Definition noFault : jsstring -> jsstring -> option jsstring :=
  fun _ _ => None.

(** Two listings, both pages complete. *)
Definition world_two : world :=
  World true
    (site_of [ (searchUrl, searchPage ["u1"; "u2"]%string);
               (js "u1", detailPage " Dev " "Acme" "Oslo"
                           "Build   things Show more Show less");
               (js "u2", detailPage "Ops" "Bolt" "Rome" "Run things") ])
    noFault.

(** The same site, but the second page has no company link. *)
Definition world_missing : world :=
  World true
    (site_of [ (searchUrl, searchPage ["u1"; "u2"]%string);
               (js "u1", detailPage " Dev " "Acme" "Oslo" "Build things");
               (js "u2", page_of [ (js "h1.topcard__title",
                                    [text_element "Ops"]) ]) ])
    noFault.

(** A search page without any listing card. *)
Definition world_empty : world :=
  World true (site_of [ (searchUrl, searchPage []) ]) noFault.

(** The site of [world_two] on a disk that refuses the write. *)
Definition world_readonly : world :=
  World true (serve world_two)
    (fun _ _ => Some (js "EACCES: permission denied, open 'jobsData.csv'")).

(** ** The callback of [showLoader] (lines 9-15) *)

Definition CR : code_unit := 13%N.

Definition loader : list jsstring := [[124%N]; [47%N]; [45%N]; [92%N]].

Definition loaderText : jsstring :=
  js " Scraping data, this might take a moment...".

(** [a[i]] on an array of strings: [undefined] past the end. *)
Definition array_get (a : list jsstring) (i : nat) : value :=
  match nth_error a i with
  | Some s => VString s
  | None => VUndefined
  end.

(** One call of the interval callback with the counter at [i]: what it
    writes to standard output and the counter it leaves. *)
Definition loader_callback (i : nat) : jsstring * nat :=
  ([CR] ++ to_text (array_get loader i) ++ loaderText,
   (i + 1) mod length loader).

(** What [ticks] successive calls write, the counter starting at [i]. *)
Fixpoint loader_output (ticks : nat) (i : nat) : list jsstring :=
  match ticks with
  | O => []
  | S n =>
      let (frame, i') := loader_callback i in
      frame :: loader_output n i'
  end.

(** ** Further notions for the statements *)

(** [s] does not end with white space. *)
Definition ends_clean (s : jsstring) : bool := starts_clean (rev s).

(** The pieces of [s] between occurrences of the code unit [sep]. *)
Fixpoint split_from (sep : code_unit) (cur : jsstring) (s : jsstring)
    : list jsstring :=
  match s with
  | [] => [rev cur]
  | c :: r =>
      if (c =? sep)%N then rev cur :: split_from sep [] r
      else split_from sep (c :: cur) r
  end.

Definition split_on (sep : code_unit) (s : jsstring) : list jsstring :=
  split_from sep [] s.

(** The trimmed text of the first element of [page] that matches
    [selector]. *)
Definition first_text (page : document) (selector : jsstring) : jsstring :=
  match page selector with
  | el :: _ => trim (textContent el)
  | [] => []
  end.

(** Every one of the four selectors matches something on [page]. *)
Definition complete (page : document) : Prop :=
  forall sel, In sel (map snd selectors) -> page sel <> [].

(** The record a complete page gives. *)
Definition record_of (page : document) : object :=
  jobRecord
    (first_text page (js "h1.topcard__title"))
    (first_text page (js "[href^='https://www.linkedin.com/company/']"))
    (first_text page (js ".topcard__flavor.topcard__flavor--bullet"))
    (normalizeDescription
       (first_text page (js "section.show-more-less-html"))).

(** The events of one successful visit. *)
Definition visit_events (url : jsstring) : list event :=
  [Navigated url; Waited 5000].

(** No value of the record holds a comma. *)
Definition comma_free_values (o : object) : Prop :=
  Forall (fun kv => ~ In COMMA (snd kv)) o.

(** The first of the four selectors, in the order of [selectors], that
    matches nothing on [page]. *)
Definition first_missing (page : document) : option jsstring :=
  find (fun sel => match page sel with [] => true | _ :: _ => false end)
       (map snd selectors).

(** The links are served by the pages, one for one, and every page is
    complete. *)
Definition all_complete (w : world) (links : list jsstring)
    (pages : list document) : Prop :=
  Forall2 (fun url page => serve w url = Some page /\ complete page)
          links pages.

(** * Properties *)

(** ** Characters *)

Lemma space_not_word c : is_space c = true -> is_word c = false.
Proof.
  unfold is_space, is_word. intros H.
  apply not_true_is_false. intros W.
  repeat rewrite ?orb_true_iff, ?andb_true_iff, ?N.leb_le, ?N.eqb_eq in H.
  repeat rewrite ?orb_true_iff, ?andb_true_iff, ?N.leb_le, ?N.eqb_eq in W.
  lia.
Qed.

Lemma tok_more_units :
  tok_more = [83; 104; 111; 119; 32; 109; 111; 114; 101]%N.
Proof. reflexivity. Qed.

Lemma tok_less_units :
  tok_less = [83; 104; 111; 119; 32; 108; 101; 115; 115]%N.
Proof. reflexivity. Qed.

(** ** Prefixes *)

Lemma starts_with_app t r : starts_with t (t ++ r) = true.
Proof.
  induction t as [|a t IH]; simpl; [reflexivity|].
  now rewrite N.eqb_refl, IH.
Qed.

Lemma starts_with_inv t s :
  starts_with t s = true -> exists r, s = t ++ r.
Proof.
  revert s. induction t as [|a t IH]; intros s H.
  - now exists s.
  - destruct s as [|b s]; simpl in H; [discriminate|].
    apply andb_true_iff in H. destruct H as [E H].
    apply N.eqb_eq in E. subst b.
    destruct (IH _ H) as [r ->]. now exists r.
Qed.

(** ** The token pattern *)

Lemma token_at_intro t r :
  is_token t -> word_at r = false -> token_at false (t ++ r) = true.
Proof.
  intros [-> | ->] Hr; unfold token_at.
  - rewrite starts_with_app. rewrite tok_more_units. simpl.
    now rewrite Hr.
  - rewrite starts_with_app, orb_true_r. rewrite tok_less_units. simpl.
    now rewrite Hr.
Qed.

Lemma token_at_inv p s :
  token_at p s = true ->
  p = false /\ exists t r, is_token t /\ s = t ++ r /\ word_at r = false.
Proof.
  unfold token_at. intros H.
  apply andb_true_iff in H. destruct H as [H H3].
  apply andb_true_iff in H. destruct H as [H1 H2].
  apply orb_true_iff in H2.
  assert (exists t r, is_token t /\ s = t ++ r) as (t & r & Ht & ->).
  { destruct H2 as [H2 | H2]; destruct (starts_with_inv _ _ H2) as [r ->];
      eexists; exists r; (split; [|reflexivity]); [now left | now right]. }
  destruct Ht as [-> | ->].
  - rewrite tok_more_units in *. simpl in H1, H3.
    destruct p; [discriminate|]. split; [reflexivity|].
    exists tok_more, r. rewrite tok_more_units. repeat split; [now left|].
    now destruct (word_at r).
  - rewrite tok_less_units in *. simpl in H1, H3.
    destruct p; [discriminate|]. split; [reflexivity|].
    exists tok_less, r. rewrite tok_less_units. repeat split; [now right|].
    now destruct (word_at r).
Qed.

(** The pattern starts with a word character. *)
Lemma token_at_nonword p s : word_at s = false -> token_at p s = false.
Proof.
  intros Hs. apply not_true_is_false. intros H.
  destruct (token_at_inv _ _ H) as (_ & t & r & [-> | ->] & -> & _);
    discriminate Hs.
Qed.

Lemma token_at_true_prev s : token_at true s = false.
Proof.
  apply not_true_is_false. intros H.
  now destruct (token_at_inv _ _ H) as [E _].
Qed.

(** A match only looks at the first ten code units. *)
Lemma token_at_window p w a b :
  10 <= length w -> token_at p (w ++ a) = token_at p (w ++ b).
Proof.
  intros L.
  do 10 (destruct w as [|? w]; [simpl in L; lia|]).
  reflexivity.
Qed.

(** ** The scan of [replace_tokens] *)

Lemma remove_from_nonword p s :
  word_at s = false -> remove_from 0 p s = remove_from 0 false s.
Proof.
  destruct s as [|c r]; [reflexivity|]. intros H. simpl.
  now rewrite !token_at_nonword.
Qed.

Lemma word_at_remove p s :
  word_at s = false -> word_at (remove_from 0 p s) = false.
Proof.
  destruct s as [|c r]; [reflexivity|]. intros H. simpl remove_from.
  now rewrite token_at_nonword.
Qed.

(** At a match the nine code units of the token go and the scan resumes
    behind them. *)
Lemma remove_from_token t r :
  is_token t -> word_at r = false ->
  remove_from 0 false (t ++ r) = remove_from 0 false r.
Proof.
  intros Ht Hr.
  pose proof (token_at_intro t r Ht Hr) as H.
  destruct Ht as [-> | ->].
  - rewrite tok_more_units in *. simpl app in *.
    cbv beta iota delta [remove_from]. rewrite H.
    fold remove_from. now apply remove_from_nonword.
  - rewrite tok_less_units in *. simpl app in *.
    cbv beta iota delta [remove_from]. rewrite H.
    fold remove_from. now apply remove_from_nonword.
Qed.

Lemma remove_from_match p s :
  token_at p s = true -> remove_from 0 p s = remove_from 0 false (skipn 9 s).
Proof.
  intros H.
  destruct (token_at_inv _ _ H) as (-> & t & r & Ht & -> & Hr).
  rewrite (remove_from_token t r Ht Hr).
  now destruct Ht as [-> | ->].
Qed.

(** *** Removing a match never creates one

    Where a token goes, the code unit before it and the code unit after it
    are both non-word characters (or an end of the string); they become
    neighbours, and no token has two adjacent non-word characters. *)

Ltac token_clash H :=
  let E := fresh "E" in
  destruct (token_at_inv _ _ H) as (_ & ? & ? & [-> | ->] & E & _);
  rewrite ?tok_more_units, ?tok_less_units in E; simpl in E;
  injection E; intros; subst;
  match goal with
  | [ W : is_word _ = false |- _ ] => now vm_compute in W
  | [ W : word_at _ = false |- _ ] => now vm_compute in W
  end.

Lemma junction_outside_match p w r :
  token_at p (w ++ r) = true ->
  ends_nonword w -> word_at r = false ->
  10 <= length w.
Proof.
  intros H (w' & d & -> & Hd) Hr.
  rewrite length_app. simpl.
  destruct w' as [|c1 w']; [exfalso; simpl in H|].
  { destruct r; simpl in Hr; token_clash H. }
  do 8 (destruct w' as [|? w']; [exfalso; simpl in H; token_clash H|]).
  simpl. lia.
Qed.

Lemma ends_nonword_last w :
  w <> [] -> is_word (last w 0%N) = false -> ends_nonword w.
Proof.
  intros Hw Hl.
  destruct (exists_last Hw) as (w' & d & ->).
  rewrite last_last in Hl. now exists w', d.
Qed.

Lemma token_not_created s : forall w p,
  w <> [] ->
  token_at p (w ++ remove_from 0 (is_word (last w 0%N)) s) = true ->
  token_at p (w ++ s) = true.
Proof.
  induction s as [|d s IH]; intros w p Hw H; [exact H|].
  destruct (token_at (is_word (last w 0%N)) (d :: s)) eqn:T.
  - destruct (token_at_inv _ _ T) as (Hl & t & r & Ht & E & Hr).
    rewrite E, Hl, (remove_from_token t r Ht Hr) in H.
    pose proof (junction_outside_match _ _ _ H
                  (ends_nonword_last w Hw Hl)
                  (word_at_remove false r Hr)) as L.
    rewrite <- H. now apply token_at_window.
  - simpl remove_from in H. rewrite T in H.
    change (w ++ d :: s) with (w ++ [d] ++ s).
    change (d :: remove_from 0 (is_word d) s)
      with ([d] ++ remove_from 0 (is_word d) s) in H.
    rewrite app_assoc in *.
    apply IH; [now destruct w | now rewrite last_last].
Qed.

Lemma remove_token_free_bounded n : forall s p,
  length s <= n -> token_free_from p (remove_from 0 p s) = true.
Proof.
  induction n as [|n IH]; intros [|c s] p L; try reflexivity;
    [simpl in L; lia|].
  destruct (token_at p (c :: s)) eqn:T.
  - rewrite (remove_from_match _ _ T).
    destruct (token_at_inv _ _ T) as (-> & _).
    apply IH. rewrite length_skipn. simpl in *. lia.
  - simpl remove_from. rewrite T.
    cbn [token_free_from]. apply andb_true_iff. split.
    + apply negb_true_iff, not_true_is_false. intros H.
      apply (token_not_created s [c] p) in H; [|discriminate].
      change ([c] ++ s) with (c :: s) in H. congruence.
    + apply IH. simpl in L. lia.
Qed.

(** After the scan no position is left at which the pattern matches. *)
Lemma remove_token_free s p :
  token_free_from p (remove_from 0 p s) = true.
Proof. now apply (remove_token_free_bounded (length s)). Qed.

(** A string without a match is left as it is, and conversely. *)
Lemma remove_from_fixed s : forall p,
  token_free_from p s = true -> remove_from 0 p s = s.
Proof.
  induction s as [|c s IH]; intros p H; [reflexivity|].
  cbn [token_free_from] in H. apply andb_true_iff in H.
  destruct H as [T H]. apply negb_true_iff in T.
  simpl. rewrite T. now rewrite IH.
Qed.

Lemma token_free_weaken s p :
  token_free_from false s = true -> token_free_from p s = true.
Proof.
  destruct p; [|trivial]. destruct s as [|c s]; [trivial|].
  cbn [token_free_from]. intros H. apply andb_true_iff in H.
  rewrite token_at_true_prev. now destruct H as [_ ->].
Qed.

(** ** [trim] *)

Lemma trimStart_clean s : starts_clean (trimStart s) = true.
Proof.
  induction s as [|c s IH]; [reflexivity|]. simpl.
  destruct (is_space c) eqn:E; [exact IH|]. simpl. now rewrite E.
Qed.

Lemma trimStart_fixed s : starts_clean s = true -> trimStart s = s.
Proof.
  destruct s as [|c s]; [reflexivity|]. simpl. intros H.
  apply negb_true_iff in H. now rewrite H.
Qed.

(** What [trimStart] cuts off is white space. *)
Lemma trimStart_split s :
  exists l, s = l ++ trimStart s /\ forallb is_space l = true.
Proof.
  induction s as [|c s (l & E & Hl)]; [now exists []|]. simpl.
  destruct (is_space c) eqn:Hc.
  - exists (c :: l). simpl. rewrite Hc, Hl. split; [now f_equal|reflexivity].
  - now exists [].
Qed.

Lemma trimEnd_split s :
  exists l, s = trimEnd s ++ l /\ forallb is_space l = true.
Proof.
  unfold trimEnd.
  destruct (trimStart_split (rev s)) as (l & E & Hl).
  exists (rev l). split.
  - rewrite <- rev_app_distr, <- E. now rewrite rev_involutive.
  - rewrite forallb_forall in *. intros x Hx. apply Hl.
    now apply in_rev.
Qed.

Lemma trimEnd_idempotent s : trimEnd (trimEnd s) = trimEnd s.
Proof.
  unfold trimEnd. rewrite rev_involutive.
  now rewrite (trimStart_fixed _ (trimStart_clean (rev s))).
Qed.

Lemma trimEnd_clean s : starts_clean s = true -> starts_clean (trimEnd s) = true.
Proof.
  intros H. destruct (trimEnd_split s) as (l & E & _).
  destruct (trimEnd s) as [|c y]; [reflexivity|].
  rewrite E in H. exact H.
Qed.

Lemma trim_idempotent s : trim (trim s) = trim s.
Proof.
  unfold trim.
  rewrite (trimStart_fixed (trimEnd (trimStart s))).
  - apply trimEnd_idempotent.
  - apply trimEnd_clean, trimStart_clean.
Qed.

(** *** [trim] keeps a string free of matches *)

Lemma word_at_spaces l : forallb is_space l = true -> word_at l = false.
Proof.
  destruct l as [|c l]; [reflexivity|]. simpl. intros H.
  apply andb_true_iff in H. now apply space_not_word.
Qed.

Lemma token_at_extend p y l :
  forallb is_space l = true ->
  token_at p y = true -> token_at p (y ++ l) = true.
Proof.
  intros Hl H.
  destruct (token_at_inv _ _ H) as (-> & t & r & Ht & -> & Hr).
  rewrite <- app_assoc. apply token_at_intro; [exact Ht|].
  destruct r as [|c r]; [now apply word_at_spaces | exact Hr].
Qed.

Lemma token_free_prefix y l : forall p,
  forallb is_space l = true ->
  token_free_from p (y ++ l) = true -> token_free_from p y = true.
Proof.
  induction y as [|c y IH]; intros p Hl H; [reflexivity|].
  simpl app in H. cbn [token_free_from] in *.
  apply andb_true_iff in H. destruct H as [T H].
  apply andb_true_iff. split; [|now apply IH].
  apply negb_true_iff in T. apply negb_true_iff, not_true_is_false.
  intros K. apply (token_at_extend p (c :: y) l Hl) in K.
  simpl app in K. congruence.
Qed.

Lemma token_free_trimStart s :
  token_free s = true -> token_free (trimStart s) = true.
Proof.
  unfold token_free.
  induction s as [|c s IH]; intros H; [reflexivity|]. simpl.
  destruct (is_space c) eqn:Hc; [|exact H].
  cbn [token_free_from] in H. apply andb_true_iff in H.
  rewrite (space_not_word c Hc) in H. now apply IH.
Qed.

Lemma token_free_trim s : token_free s = true -> token_free (trim s) = true.
Proof.
  intros H. apply token_free_trimStart in H.
  unfold trim, token_free in *.
  destruct (trimEnd_split (trimStart s)) as (l & E & Hl).
  rewrite E in H. now apply token_free_prefix in H.
Qed.

(** ** The description clean-up *)

Lemma normalize_token_free s : token_free (normalizeDescription s) = true.
Proof.
  unfold normalizeDescription, replace_tokens.
  apply token_free_trim, remove_token_free.
Qed.

Lemma replace_tokens_fixed s : token_free s = true -> replace_tokens s = s.
Proof. apply remove_from_fixed. Qed.

(** C1, as stated, fails: removing a token that stands between two spaces
    leaves both spaces, and the next application merges them. *)
Lemma normalize_not_idempotent :
  normalizeDescription (normalizeDescription (js "Desc Show more here"))
  <> normalizeDescription (js "Desc Show more here").
Proof. vm_compute. discriminate. Qed.

(** *** White space left in a normalized text *)

Lemma replace_ws_spaces s : forall b,
  plain_spaces (replace_ws_from b s).
Proof.
  unfold plain_spaces.
  induction s as [|c s IH]; intros b; simpl; [constructor|].
  destruct (is_space c) eqn:Hc.
  - destruct b; [apply IH|]. constructor; [reflexivity | apply IH].
  - constructor; [congruence | apply IH].
Qed.

Lemma remove_from_incl s : forall k p c,
  In c (remove_from k p s) -> In c s.
Proof.
  induction s as [|d s IH]; intros k p c H; [exact H|].
  simpl in H. destruct k as [|k].
  - destruct (token_at p (d :: s)).
    + right. now apply IH in H.
    + destruct H as [<- | H]; [now left | right; now apply IH in H].
  - right. now apply IH in H.
Qed.

Lemma trim_incl s c : In c (trim s) -> In c s.
Proof.
  intros H. unfold trim in H.
  destruct (trimStart_split s) as (l1 & E1 & _).
  destruct (trimEnd_split (trimStart s)) as (l2 & E2 & _).
  rewrite E1, E2. apply in_or_app. right. apply in_or_app. now left.
Qed.

Lemma normalize_spaces s : plain_spaces (normalizeDescription s).
Proof.
  unfold plain_spaces. apply Forall_forall. intros c Hc.
  apply trim_incl, remove_from_incl in Hc.
  pose proof (replace_ws_spaces s false) as P.
  unfold plain_spaces in P. rewrite Forall_forall in P. now apply P.
Qed.

Lemma replace_ws_length s : forall b,
  length (replace_ws_from b s) <= length s.
Proof.
  induction s as [|c s IH]; intros b; simpl; [lia|].
  pose proof (IH true). pose proof (IH false).
  destruct (is_space c); [destruct b|]; simpl; lia.
Qed.

Lemma replace_ws_same_length s : forall b,
  plain_spaces s ->
  length (replace_ws_from b s) = length s -> replace_ws_from b s = s.
Proof.
  induction s as [|c s IH]; intros b P L; [reflexivity|].
  inversion P as [|? ? Pc Ps]; subst. simpl in *.
  destruct (is_space c) eqn:Hc.
  - destruct b.
    + pose proof (replace_ws_length s true). lia.
    + simpl in L. rewrite (Pc eq_refl). f_equal. apply IH; [exact Ps | lia].
  - simpl in L. f_equal. apply IH; [exact Ps | lia].
Qed.

Lemma remove_from_length s : forall k p,
  length (remove_from k p s) <= length s.
Proof.
  induction s as [|c s IH]; intros k p; simpl; [lia|].
  destruct k as [|k]; [destruct (token_at p (c :: s))|]; simpl.
  - specialize (IH 8 (is_word c)). lia.
  - specialize (IH 0 (is_word c)). lia.
  - specialize (IH k (is_word c)). lia.
Qed.

Lemma trim_length s : length (trim s) <= length s.
Proof.
  unfold trim.
  destruct (trimStart_split s) as (l1 & E1 & _).
  destruct (trimEnd_split (trimStart s)) as (l2 & E2 & _).
  rewrite E1 at 2. rewrite E2 at 2. rewrite !length_app. lia.
Qed.

(** C1 (amended): normalize(normalize(s)) == normalize(s) holds exactly
    for the inputs whose normalized text has no white-space run left to
    collapse, that is, when [replace(/\s+/g, " ")] leaves normalize(s)
    unchanged. *)
Theorem normalize_idempotent_iff_collapsed (s : jsstring) :
  normalizeDescription (normalizeDescription s) = normalizeDescription s
  <-> replace_whitespace (normalizeDescription s) = normalizeDescription s.
Proof.
  split; intros H.
  - apply replace_ws_same_length; [apply normalize_spaces|].
    apply Nat.le_antisymm; [apply replace_ws_length|].
    rewrite <- H at 1. unfold normalizeDescription at 1.
    etransitivity; [apply trim_length|]. apply remove_from_length.
  - unfold normalizeDescription at 1. rewrite H.
    rewrite (replace_tokens_fixed _ (normalize_token_free s)).
    unfold normalizeDescription. apply trim_idempotent.
Qed.

Lemma normalize_idempotent_iff_collapsed_witness :
  replace_whitespace
    (normalizeDescription (js "Great role   Show more Show less"))
  = normalizeDescription (js "Great role   Show more Show less")
  /\ normalizeDescription
       (normalizeDescription (js "Great role   Show more Show less"))
     = normalizeDescription (js "Great role   Show more Show less").
Proof.
  split; [reflexivity|].
  apply (proj2 (normalize_idempotent_iff_collapsed
                  (js "Great role   Show more Show less"))).
  reflexivity.
Defined.

(** C2, as stated, fails twice: the two spaces around a removed token both
    stay, and an occurrence glued to a word character is not removed. *)
Lemma normalize_example_differs :
  normalizeDescription (js "Desc Show more here") <> js "Desc here"
  /\ occurs_in tok_more (normalizeDescription (js "Show moreover")) = true.
Proof. split; [vm_compute; discriminate | reflexivity]. Qed.

(** C2 (amended): the normalized text has no occurrence of either token
    that is delimited by word boundaries; a text whose collapsed form has
    no such occurrence only loses white space; and
    normalize("Desc Show more here") is "Desc  here", with two spaces. *)
Theorem normalize_removes_bounded_tokens :
  (forall s, token_free (normalizeDescription s) = true)
  /\ (forall s, token_free (replace_whitespace s) = true ->
                normalizeDescription s = trim (replace_whitespace s))
  /\ normalizeDescription (js "Desc Show more here") = js "Desc  here".
Proof.
  split; [exact normalize_token_free|]. split; [|reflexivity].
  intros s H. unfold normalizeDescription.
  now rewrite (replace_tokens_fixed _ H).
Qed.

Lemma normalize_removes_bounded_tokens_witness :
  token_free (replace_whitespace (js "Lead  dev")) = true
  /\ normalizeDescription (js "Lead  dev")
     = trim (replace_whitespace (js "Lead  dev")).
Proof.
  split; [reflexivity|].
  apply (proj1 (proj2 normalize_removes_bounded_tokens)). reflexivity.
Defined.

(** ** [convertToCsv] *)

Lemma fold_push_row keys data : forall csv,
  fold_left (push_row keys) data csv = csv ++ map (row_text keys) data.
Proof.
  induction data as [|row data IH]; intros csv; simpl.
  - now rewrite app_nil_r.
  - rewrite IH. unfold push_row. now rewrite <- app_assoc.
Qed.

(** The document is the header and one row per record, in order. *)
Lemma convertToCsv_rows first rest :
  convertToCsv (first :: rest)
  = Ok (join [LF] (join [COMMA] (Object_keys first)
                   :: map (row_text (Object_keys first)) (first :: rest))).
Proof. unfold convertToCsv. now rewrite fold_push_row. Qed.



Lemma row_text_job_record o :
  is_job_record o -> row_text fieldNames o = quoted_values o.
Proof. intros (t & c & l & d & ->). reflexivity. Qed.

Lemma keys_job_record o : is_job_record o -> Object_keys o = fieldNames.
Proof. intros (t & c & l & d & ->). reflexivity. Qed.

(** *** Lines of a joined document *)

Lemma lines_from_app x : forall cur rest,
  ~ In LF x -> lines_from cur (x ++ rest) = lines_from (rev x ++ cur) rest.
Proof.
  induction x as [|c x IH]; intros cur rest H; [reflexivity|].
  simpl. destruct (N.eqb_spec c LF) as [E|E].
  - exfalso. apply H. now left.
  - rewrite IH; [|intros K; apply H; now right].
    now rewrite <- app_assoc.
Qed.

Lemma lines_join x l :
  Forall (fun y => ~ In LF y) (x :: l) -> lines (join [LF] (x :: l)) = x :: l.
Proof.
  revert x. induction l as [|y l IH]; intros x H; unfold lines in *.
  - simpl. rewrite <- (app_nil_r x) at 1.
    rewrite lines_from_app; [|now inversion H]. simpl.
    now rewrite app_nil_r, rev_involutive.
  - inversion H as [|? ? Hx Hl]; subst.
    change (join [LF] (x :: y :: l)) with (x ++ LF :: join [LF] (y :: l)).
    rewrite lines_from_app by exact Hx. simpl.
    rewrite app_nil_r, rev_involutive. f_equal. now apply IH.
Qed.

Lemma quoted_values_single_line o :
  single_line_values o -> ~ In LF (quoted_values o).
Proof.
  unfold single_line_values, quoted_values.
  induction o as [|[k v] o IH]; intros H; [intros []|].
  inversion H as [|? ? Hv Ho]; subst. simpl in Hv.
  specialize (IH Ho).
  assert (Hq : ~ In LF ([QUOTE] ++ v ++ [QUOTE])).
  { intros K. apply in_app_or in K. destruct K as [[K|[]]|K];
      [discriminate|].
    apply in_app_or in K. destruct K as [K|[K|[]]];
      [contradiction | discriminate]. }
  destruct o as [|kv o]; [exact Hq|].
  change (~ In LF (([QUOTE] ++ v ++ [QUOTE]) ++ [COMMA]
                   ++ join [COMMA]
                        (map (fun kv => [QUOTE] ++ snd kv ++ [QUOTE])
                           (kv :: o)))).
  intros K. apply in_app_or in K. destruct K as [K|K]; [contradiction|].
  apply in_app_or in K. destruct K as [[K|[]]|K];
    [discriminate | contradiction].
Qed.

(** C4, as stated, fails: on the empty list [convertToCsv] returns no
    document at all. *)
Lemma export_empty_is_no_document :
  ~ exists doc, convertToCsv [] = Ok doc.
Proof. intros [doc H]. discriminate H. Qed.

(** C4 (amended): on an empty record list [convertToCsv] throws a
    TypeError (the keys of a first record that does not exist); the
    [try ... catch] of [main] catches it, reports it on the console and
    completes, and nothing is written. *)
Theorem export_empty_raises_and_is_reported (w : world) (st : state) :
  convertToCsv []
  = Throw (TypeError (js "Cannot convert undefined or null to object"))
  /\ exportJobs [] w st
     = (Ok tt,
        State (current st)
          (trace st
           ++ [ConsoleError
                 (failureMessage
                    (TypeError
                       (js "Cannot convert undefined or null to object")))])).
Proof. split; reflexivity. Qed.

(** C6, as stated, fails: values are not escaped, so a value that holds a
    line feed splits its row; one record then gives three lines. *)
Lemma export_line_count_breaks :
  exists doc,
    convertToCsv [jobRecord [65; LF; 66]%N (js "B") (js "C") (js "D")] = Ok doc
    /\ length (lines doc) <> 1 + 1.
Proof. eexists. split; [reflexivity|]. vm_compute. lia. Qed.

(** C6 (amended): for N >= 1 job records the document is the header line
    "title,company,location,description" and one row per record, in record
    order, joined by line feeds, each row being the record's values
    between double quotes joined by commas: N+1 pieces.  When no value
    holds a line feed these pieces are exactly the lines of the
    document. *)
Theorem export_header_and_rows (data : list object) :
  data <> [] ->
  Forall is_job_record data ->
  exists doc,
    convertToCsv data = Ok doc
    /\ doc = join [LF] (csvHeader :: map quoted_values data)
    /\ length (csvHeader :: map quoted_values data) = length data + 1
    /\ (Forall single_line_values data ->
        lines doc = csvHeader :: map quoted_values data).
Proof.
  intros Hne Hjobs. destruct data as [|first rest]; [congruence|].
  eexists. split; [apply convertToCsv_rows|].
  assert (Hrows : map (row_text (Object_keys first)) (first :: rest)
                  = map quoted_values (first :: rest)).
  { rewrite (keys_job_record first) by now inversion Hjobs.
    apply map_ext_in. intros o Ho. apply row_text_job_record.
    rewrite Forall_forall in Hjobs. now apply Hjobs. }
  assert (Hhead : join [COMMA] (Object_keys first) = csvHeader).
  { rewrite (keys_job_record first) by now inversion Hjobs. reflexivity. }
  rewrite Hrows, Hhead. split; [reflexivity|]. split.
  - cbn [length]. rewrite length_map. simpl. lia.
  - intros Hlf. apply lines_join. constructor.
    + vm_compute. intuition discriminate.
    + rewrite Forall_forall in *. intros y Hy.
      apply in_map_iff in Hy. destruct Hy as (o & <- & Ho).
      now apply quoted_values_single_line, Hlf.
Qed.

Lemma export_header_and_rows_witness :
  exists doc,
    convertToCsv [jobRecord (js "A") (js "B") (js "C") (js "D");
                  jobRecord (js "E") (js "F") (js "G") (js "H")] = Ok doc
    /\ lines doc
       = [ js "title,company,location,description";
           [QUOTE; 65; QUOTE; COMMA; QUOTE; 66; QUOTE; COMMA;
            QUOTE; 67; QUOTE; COMMA; QUOTE; 68; QUOTE]%N;
           [QUOTE; 69; QUOTE; COMMA; QUOTE; 70; QUOTE; COMMA;
            QUOTE; 71; QUOTE; COMMA; QUOTE; 72; QUOTE]%N ].
Proof.
  destruct (export_header_and_rows
              [jobRecord (js "A") (js "B") (js "C") (js "D");
               jobRecord (js "E") (js "F") (js "G") (js "H")])
    as (doc & Hdoc & _ & _ & Hlines).
  - discriminate.
  - repeat constructor; now repeat eexists.
  - exists doc. split; [exact Hdoc|]. apply Hlines.
    repeat constructor; vm_compute; intuition discriminate.
Defined.

(** C10, as stated, fails: a key that the later record does not own is
    looked up on [Object.prototype]; for "toString" the row holds the text
    of the inherited function, not "undefined". *)
Lemma export_missing_key_inherited :
  convertToCsv [ [(js "toString", js "x")]; [] ]
  = Ok (js "toString" ++ [LF; QUOTE; 120; QUOTE; LF; QUOTE]%N
        ++ js "function toString() { [native code] }" ++ [QUOTE])
  /\ row_text [js "toString"] [] <> [QUOTE] ++ js "undefined" ++ [QUOTE].
Proof. split; [reflexivity | vm_compute; discriminate]. Qed.

(** C10 (amended): for a non-empty list the header is the key list of the
    first record and every row has one cell per key of the first record,
    in that order, so a key owned only by a later record is left out; the
    cell of a key the row owns is its value between double quotes, and the
    cell of a key the row does not own is "undefined" between double
    quotes when [Object.prototype] has no property of that name. *)
Theorem export_projects_on_first_keys (first : object) (rest : list object) :
  convertToCsv (first :: rest)
  = Ok (join [LF]
          (join [COMMA] (Object_keys first)
           :: map (fun row =>
                     join [COMMA]
                       (map (fun key => quoted (get row key))
                            (Object_keys first)))
                  (first :: rest)))
  /\ (forall row key v,
        own_property row key = Some v ->
        quoted (get row key) = [QUOTE] ++ v ++ [QUOTE])
  /\ (forall row key,
        own_property row key = None ->
        Object_prototype key = VUndefined ->
        quoted (get row key) = [QUOTE] ++ js "undefined" ++ [QUOTE]).
Proof.
  split; [apply convertToCsv_rows|].
  split; intros row key; unfold get.
  - now intros v ->.
  - now intros -> ->.
Qed.

Lemma export_projects_on_first_keys_witness :
  own_property [(js "extra", js "z")] (js "title") = None
  /\ Object_prototype (js "title") = VUndefined
  /\ quoted (get [(js "extra", js "z")] (js "title"))
     = [QUOTE] ++ js "undefined" ++ [QUOTE]
  /\ convertToCsv [ [(js "title", js "A")]; [(js "extra", js "z")] ]
     = Ok (js "title" ++ [LF; QUOTE; 65; QUOTE; LF; QUOTE]%N
           ++ js "undefined" ++ [QUOTE]).
Proof.
  destruct (export_projects_on_first_keys
              [(js "title", js "A")] [[(js "extra", js "z")]])
    as (Hdoc & _ & Hmiss).
  split; [reflexivity|]. split; [reflexivity|]. split.
  - apply Hmiss; reflexivity.
  - refine (eq_trans Hdoc _). reflexivity.
Defined.

(** ** [scrapeJobDetails] *)

(** The three ways a call can end: the navigation fails; some selector
    matches nothing; or the four texts are read and the record is built. *)
Lemma scrapeJobDetails_cases url w st :
  (serve w url = None
   /\ scrapeJobDetails url w st = (Throw (NavigationError url), st))
  \/ (exists page sel,
        serve w url = Some page
        /\ In sel (map snd selectors) /\ page sel = []
        /\ scrapeJobDetails url w st
           = (Throw (NoElementError sel), loaded st url page))
  \/ (exists page t c l d,
        serve w url = Some page
        /\ (forall sel, In sel (map snd selectors) -> page sel <> [])
        /\ scrapeJobDetails url w st
           = (Ok (jobRecord t c l (normalizeDescription d)),
              loaded st url page)).
Proof.
  unfold scrapeJobDetails, bind, page_goto, page_waitForTimeout, emit, loaded.
  destruct (serve w url) as [page|]; [right | now left].
  cbn [fill_fields Object_entries selectors].
  unfold bind, page_eval, ret. cbn [current trace].
  destruct (page (js "h1.topcard__title")) as [|e1 ?] eqn:P1.
  { left. exists page, (js "h1.topcard__title").
    repeat split; try exact P1; simpl; tauto. }
  cbn [current].
  destruct (page (js "[href^='https://www.linkedin.com/company/']"))
    as [|e2 ?] eqn:P2.
  { left. exists page, (js "[href^='https://www.linkedin.com/company/']").
    repeat split; try exact P2; simpl; tauto. }
  cbn [current].
  destruct (page (js ".topcard__flavor.topcard__flavor--bullet"))
    as [|e3 ?] eqn:P3.
  { left. exists page, (js ".topcard__flavor.topcard__flavor--bullet").
    repeat split; try exact P3; simpl; tauto. }
  cbn [current].
  destruct (page (js "section.show-more-less-html")) as [|e4 ?] eqn:P4.
  { left. exists page, (js "section.show-more-less-html").
    repeat split; try exact P4; simpl; tauto. }
  right. exists page.
  exists (trim (textContent e1)), (trim (textContent e2)),
         (trim (textContent e3)), (trim (textContent e4)).
  repeat split.
  intros sel [<- | [<- | [<- | [<- | []]]]]; cbn [snd]; congruence.
Qed.

Lemma scrapeJobDetails_trace url w st r st' :
  scrapeJobDetails url w st = (r, st') ->
  exists evs, trace st' = trace st ++ evs /\ forallb browsing evs = true.
Proof.
  intros H.
  destruct (scrapeJobDetails_cases url w st)
    as [(_ & E) | [(page & sel & _ & _ & _ & E)
                  | (page & t & c & l & d & _ & _ & E)]];
    rewrite E in H; injection H as <- <-.
  - exists []. now rewrite app_nil_r.
  - exists [Navigated url; Waited 5000]. simpl.
    now rewrite <- app_assoc.
  - exists [Navigated url; Waited 5000]. simpl.
    now rewrite <- app_assoc.
Qed.

Lemma scrapeJobDetails_record url w st job st' :
  scrapeJobDetails url w st = (Ok job, st') -> is_job_record job.
Proof.
  intros H.
  destruct (scrapeJobDetails_cases url w st)
    as [(_ & E) | [(page & sel & _ & _ & _ & E)
                  | (page & t & c & l & d & _ & _ & E)]];
    rewrite E in H; try discriminate.
  injection H as <- <-. now exists t, c, l, (normalizeDescription d).
Qed.

Lemma scrapeJobDetails_missing url w st page sel :
  serve w url = Some page ->
  In sel (map snd selectors) -> page sel = [] ->
  exists e st', scrapeJobDetails url w st = (Throw e, st').
Proof.
  intros Hs Hsel Hp.
  destruct (scrapeJobDetails_cases url w st)
    as [(_ & E) | [(page' & sel' & _ & _ & _ & E)
                  | (page' & t & c & l & d & Hs' & Hall & E)]];
    try (rewrite E; now eauto).
  exfalso. rewrite Hs in Hs'. injection Hs' as <-.
  now apply (Hall sel).
Qed.

(** ** The extraction loop *)

Lemma scrapeAll_step jobLink rest jobDetails w st :
  scrapeAll (jobLink :: rest) jobDetails w st
  = match scrapeJobDetails jobLink w st with
    | (Ok details, st') => scrapeAll rest (jobDetails ++ [details]) w st'
    | (Throw e, st') => (Throw e, st')
    end.
Proof. reflexivity. Qed.

Lemma scrapeAll_trace jobLinks : forall jobDetails w st r st',
  scrapeAll jobLinks jobDetails w st = (r, st') ->
  exists evs, trace st' = trace st ++ evs /\ forallb browsing evs = true.
Proof.
  induction jobLinks as [|jobLink rest IH]; intros acc w st r st' H.
  - injection H as <- <-. exists []. now rewrite app_nil_r.
  - rewrite scrapeAll_step in H.
    destruct (scrapeJobDetails jobLink w st) as [[details|e] st1] eqn:S;
      apply scrapeJobDetails_trace in S; destruct S as (ev1 & E1 & B1).
    + apply IH in H. destruct H as (ev2 & E2 & B2).
      exists (ev1 ++ ev2). rewrite E2, E1, <- app_assoc. split; [reflexivity|].
      rewrite forallb_app. now rewrite B1, B2.
    + injection H as <- <-. now exists ev1.
Qed.

Lemma scrapeAll_records jobLinks : forall jobDetails w st jobs st',
  scrapeAll jobLinks jobDetails w st = (Ok jobs, st') ->
  Forall is_job_record jobDetails ->
  Forall is_job_record jobs
  /\ length jobs = length jobDetails + length jobLinks.
Proof.
  induction jobLinks as [|jobLink rest IH]; intros acc w st jobs st' H Hacc.
  - injection H as <- <-. split; [exact Hacc | simpl; lia].
  - rewrite scrapeAll_step in H.
    destruct (scrapeJobDetails jobLink w st) as [[details|e] st1] eqn:S;
      [|discriminate].
    apply scrapeJobDetails_record in S.
    apply IH in H.
    + destruct H as [H L]. split; [exact H|].
      rewrite L, length_app. simpl. lia.
    + apply Forall_app. split; [exact Hacc | now constructor].
Qed.

Lemma scrapeAll_missing jobLinks : forall jobDetails w st url page sel,
  In url jobLinks ->
  serve w url = Some page ->
  In sel (map snd selectors) -> page sel = [] ->
  exists e st', scrapeAll jobLinks jobDetails w st = (Throw e, st').
Proof.
  induction jobLinks as [|jobLink rest IH];
    intros acc w st url page sel Hin Hs Hsel Hp; [destruct Hin|].
  rewrite scrapeAll_step.
  destruct (scrapeJobDetails jobLink w st) as [[details|e] st1] eqn:S;
    [|now eauto].
  destruct Hin as [-> | Hin].
  - destruct (scrapeJobDetails_missing url w st page sel Hs Hsel Hp)
      as (e & st2 & E).
    rewrite E in S. discriminate.
  - now apply (IH _ w st1 url page sel).
Qed.

(** ** The [try ... catch] around the export *)

Lemma exportJobs_cases jobDetails w st :
  (exists csv,
     convertToCsv jobDetails = Ok csv
     /\ write_fault w outputPath csv = None
     /\ exportJobs jobDetails w st
        = (Ok tt,
           State (current st)
             ((trace st ++ [FileWritten outputPath csv])
              ++ [ConsoleLog successMessage])))
  \/ (exists e,
        (convertToCsv jobDetails = Throw e
         \/ exists csv msg,
              convertToCsv jobDetails = Ok csv
              /\ write_fault w outputPath csv = Some msg
              /\ e = WriteError msg)
        /\ exportJobs jobDetails w st
           = (Ok tt,
              State (current st)
                (trace st ++ [ConsoleError (failureMessage e)]))).
Proof.
  unfold exportJobs, try_catch, saveCsv, bind, lift, fs_writeFile,
    console_log, console_error, emit.
  destruct (convertToCsv jobDetails) as [csv|e] eqn:C.
  - destruct (write_fault w outputPath csv) as [msg|] eqn:W.
    + right. exists (WriteError msg). split; [|reflexivity].
      right. now exists csv, msg.
    + left. now exists csv.
  - right. exists e. split; [now left | reflexivity].
Qed.

(** ** The whole run *)

Lemma run_unfold w :
  run w
  = if launch_ok w then
      match serve w searchUrl with
      | None =>
          (Throw (NavigationError searchUrl),
           [LoaderStarted; BrowserLaunched; PageOpened])
      | Some d =>
          match scrapeAll (map href (d linkSelector)) [] w
                  (State d prelude) with
          | (Throw e, st) => (Throw e, trace st)
          | (Ok jobDetails, st) =>
              let (r, st') :=
                exportJobs jobDetails w
                  (State (current st)
                     ((trace st ++ [BrowserClosed]) ++ [LoaderCleared])) in
              (r, trace st')
          end
      end
    else (Throw LaunchError, [LoaderStarted]).
Proof.
  unfold run, main, bind, showLoader, puppeteer_launch, browser_newPage,
    page_goto, collectJobLinks, page_evalAll, browser_close, clearInterval,
    emit, initial.
  cbn [current trace app].
  destruct (launch_ok w); [|reflexivity].
  cbn [current trace app].
  destruct (serve w searchUrl) as [d|]; [|reflexivity].
  cbn [current trace app]. fold prelude.
  destruct (scrapeAll (map href (d linkSelector)) [] w (State d prelude))
    as [[jobDetails|e] st]; reflexivity.
Qed.

Lemma browsing_before_close evs :
  forallb browsing evs = true -> forallb before_close evs = true.
Proof.
  induction evs as [|e evs IH]; [reflexivity|]. simpl. intros H.
  apply andb_true_iff in H. destruct H as [He H].
  rewrite (IH H). now destruct e.
Qed.

(** A run either stops on an uncaught error before the browser is closed,
    or closes the browser, clears the loader, exports and completes. *)
Lemma run_cases w :
  (exists e evs,
     run w = (Throw e, evs) /\ forallb before_close evs = true)
  \/ (exists pre jobDetails post,
        run w = (Ok tt, pre ++ [BrowserClosed; LoaderCleared] ++ post)
        /\ forallb before_close pre = true
        /\ export_events w jobDetails post).
Proof.
  rewrite run_unfold.
  destruct (launch_ok w); [|left; now eauto].
  destruct (serve w searchUrl) as [d|]; [|left; now eauto].
  destruct (scrapeAll (map href (d linkSelector)) [] w (State d prelude))
    as [[jobDetails|e] st] eqn:S;
    apply scrapeAll_trace in S; destruct S as (evs & E & B);
    apply browsing_before_close in B; cbn [trace] in E.
  - right. exists (trace st), jobDetails.
    destruct (exportJobs_cases jobDetails w
                (State (current st)
                   ((trace st ++ [BrowserClosed]) ++ [LoaderCleared])))
      as [(csv & C & W & X) | (e & _ & X)]; rewrite X; cbn [trace current].
    + exists [FileWritten outputPath csv; ConsoleLog successMessage].
      repeat split.
      * now rewrite <- !app_assoc.
      * rewrite E, forallb_app, B. reflexivity.
      * left. now exists csv.
    + exists [ConsoleError (failureMessage e)]. repeat split.
      * now rewrite <- !app_assoc.
      * rewrite E, forallb_app, B. reflexivity.
      * right. now exists e.
  - left. exists e, (trace st). split; [reflexivity|].
    rewrite E, forallb_app, B. reflexivity.
Qed.

Lemma before_close_excludes evs e :
  forallb before_close evs = true -> before_close e = false -> ~ In e evs.
Proof.
  intros H He K. rewrite forallb_forall in H. apply H in K. congruence.
Qed.

Lemma outcome_events w : run w = (outcome w, events w).
Proof. unfold outcome, events. now destruct (run w). Qed.

(** C3, as stated, fails: when the second extraction fails the browser
    has been launched and the run ends without [close()]. *)
Lemma browser_left_open_on_failure :
  In BrowserLaunched (events world_missing)
  /\ outcome world_missing
     = Throw (NoElementError
                (js "[href^='https://www.linkedin.com/company/']"))
  /\ ~ In BrowserClosed (events world_missing).
Proof.
  split; [vm_compute; tauto|]. split; [reflexivity|].
  vm_compute. intuition discriminate.
Qed.

(** C3 (amended): [close()] is executed exactly in the runs that complete
    without an uncaught error, that is when the launch, the search
    navigation and every extraction succeed; a run in which an extraction
    fails ends with that error and never executes [close()]. *)
Theorem close_iff_run_completes (w : world) :
  (In BrowserClosed (events w) <-> outcome w = Ok tt)
  /\ (forall e, outcome w = Throw e -> ~ In BrowserClosed (events w)).
Proof.
  pose proof (outcome_events w) as R.
  destruct (run_cases w)
    as [(e & evs & E & B) | (pre & jobs & post & E & B & _)];
    rewrite E in R; injection R as Ho He; rewrite <- Ho, <- He.
  - assert (N : ~ In BrowserClosed evs)
      by now apply before_close_excludes.
    split; [split; [contradiction | discriminate] | now intros _ _].
  - split; [|discriminate].
    split; [reflexivity | intros _].
    apply in_or_app. right. now left.
Qed.

Lemma close_iff_run_completes_witness :
  outcome world_two = Ok tt /\ In BrowserClosed (events world_two).
Proof.
  split; [reflexivity|].
  apply (proj1 (close_iff_run_completes world_two)). reflexivity.
Defined.

(** C5: when some listed detail page has no element for one of the four
    selectors, extracting that record fails, the run ends with an uncaught
    error, and no file is written. *)
Theorem missing_element_aborts_without_export
    (w : world) (d page : document) (url sel : jsstring) :
  serve w searchUrl = Some d ->
  In url (map href (d linkSelector)) ->
  serve w url = Some page ->
  In sel (map snd selectors) ->
  page sel = [] ->
  (forall st, exists e st', scrapeJobDetails url w st = (Throw e, st'))
  /\ (exists e, outcome w = Throw e)
  /\ (forall path data, ~ In (FileWritten path data) (events w)).
Proof.
  intros Hd Hin Hs Hsel Hp.
  split; [intros st; now apply (scrapeJobDetails_missing url w st page sel)|].
  assert (F : exists e, outcome w = Throw e).
  { unfold outcome. rewrite run_unfold.
    destruct (launch_ok w); [|simpl; now eauto].
    rewrite Hd.
    destruct (scrapeAll_missing (map href (d linkSelector)) [] w
                (State d prelude) url page sel Hin Hs Hsel Hp)
      as (e & st' & ->).
    now exists e. }
  split; [exact F|].
  destruct F as [e F]. intros path data.
  pose proof (outcome_events w) as R.
  destruct (run_cases w)
    as [(e' & evs & E & B) | (pre & jobs & post & E & _)];
    rewrite E in R; injection R as Ho He.
  - rewrite <- He. now apply before_close_excludes.
  - congruence.
Qed.

Lemma missing_element_aborts_without_export_witness :
  (exists e, outcome world_missing = Throw e)
  /\ (forall path data, ~ In (FileWritten path data) (events world_missing)).
Proof.
  apply (missing_element_aborts_without_export world_missing
           (searchPage ["u1"; "u2"]%string)
           (page_of [(js "h1.topcard__title", [text_element "Ops"])])
           (js "u2")
           (js "[href^='https://www.linkedin.com/company/']")).
  - reflexivity.
  - vm_compute. tauto.
  - reflexivity.
  - vm_compute. tauto.
  - reflexivity.
Defined.

(** C7: the [try ... catch] around the export never throws; when
    [fs.writeFile] fails, the error is caught and printed with
    [console.error], and the statement completes. *)
Theorem write_failure_is_caught_and_reported
    (w : world) (jobDetails : list object) (st : state) :
  fst (exportJobs jobDetails w st) = Ok tt
  /\ (forall csv msg,
        convertToCsv jobDetails = Ok csv ->
        write_fault w outputPath csv = Some msg ->
        exportJobs jobDetails w st
        = (Ok tt,
           State (current st)
             (trace st
              ++ [ConsoleError (failureMessage (WriteError msg))]))).
Proof.
  split.
  - destruct (exportJobs_cases jobDetails w st)
      as [(csv & _ & _ & ->) | (e & _ & ->)]; reflexivity.
  - intros csv msg C W.
    unfold exportJobs, try_catch, saveCsv, bind, lift, fs_writeFile.
    now rewrite C, W.
Qed.

Lemma write_failure_is_caught_and_reported_witness :
  outcome world_readonly = Ok tt
  /\ exportJobs [jobRecord (js "A") (js "B") (js "C") (js "D")]
       world_readonly initial
     = (Ok tt,
        State blank
          [ConsoleError
             (failureMessage
                (WriteError
                   (js "EACCES: permission denied, open 'jobsData.csv'")))]).
Proof.
  split; [reflexivity|].
  eapply (proj2 (write_failure_is_caught_and_reported world_readonly
                   [jobRecord (js "A") (js "B") (js "C") (js "D")] initial));
    reflexivity.
Defined.

(** C8: every record that [scrapeJobDetails] returns has the keys title,
    company, location, description, in that order, and a document
    exported from such records starts with the header row made of these
    four names in the same order. *)
Theorem extracted_records_match_header (data : list object) :
  Forall (fun job => exists url w st st',
            scrapeJobDetails url w st = (Ok job, st')) data ->
  Forall (fun job => Object_keys job = fieldNames) data
  /\ join [COMMA] fieldNames = csvHeader
  /\ (data <> [] ->
      exists rows,
        convertToCsv data = Ok (join [LF] (join [COMMA] fieldNames :: rows))
        /\ length rows = length data).
Proof.
  intros H.
  assert (K : Forall (fun job => Object_keys job = fieldNames) data).
  { rewrite Forall_forall in *. intros job Hjob.
    destruct (H job Hjob) as (url & w & st & st' & E).
    now apply keys_job_record, (scrapeJobDetails_record url w st job st'). }
  split; [exact K|]. split; [reflexivity|].
  intros Hne. destruct data as [|first rest]; [congruence|].
  rewrite convertToCsv_rows.
  inversion K as [|? ? Kfirst _]; subst. rewrite Kfirst.
  eexists. split; [reflexivity|]. now rewrite length_map.
Qed.

Lemma extracted_records_match_header_witness :
  exists job st',
    scrapeJobDetails (js "u1") world_two initial = (Ok job, st')
    /\ Object_keys job = fieldNames
    /\ exists rows,
         convertToCsv [job] = Ok (join [LF] (csvHeader :: rows))
         /\ length rows = 1.
Proof.
  destruct (scrapeJobDetails (js "u1") world_two initial)
    as [[job|e] st'] eqn:S; [|vm_compute in S; discriminate S].
  exists job, st'. split; [reflexivity|].
  destruct (extracted_records_match_header [job]) as (K & _ & D).
  - constructor; [|constructor].
    now exists (js "u1"), world_two, initial, st'.
  - split; [now inversion K|]. apply D. discriminate.
Defined.

(** C9: on a search page where no anchor matches the listing-card
    selector, link collection returns the empty list without an error,
    the extraction loop visits no page and yields zero records, and the
    run goes on to close the browser. *)
Theorem no_links_no_records (w : world) (d : document) :
  launch_ok w = true ->
  serve w searchUrl = Some d ->
  d linkSelector = [] ->
  (forall tr, collectJobLinks w (State d tr) = (Ok [], State d tr))
  /\ (forall st, scrapeAll [] [] w st = (Ok [], st))
  /\ run w
     = (Ok tt,
        prelude
        ++ [BrowserClosed; LoaderCleared;
            ConsoleError
              (failureMessage
                 (TypeError
                    (js "Cannot convert undefined or null to object")))]).
Proof.
  intros Hl Hd He. split; [|split].
  - intros tr. unfold collectJobLinks, page_evalAll. cbn [current].
    now rewrite He.
  - reflexivity.
  - rewrite run_unfold, Hl, Hd, He. reflexivity.
Qed.

Lemma no_links_no_records_witness :
  events world_empty
  = prelude
    ++ [BrowserClosed; LoaderCleared;
        ConsoleError
          (failureMessage
             (TypeError (js "Cannot convert undefined or null to object")))].
Proof.
  pose proof (no_links_no_records world_empty (searchPage [])
                eq_refl eq_refl eq_refl) as (_ & _ & R).
  unfold events. now rewrite R.
Defined.

(** * Further properties of the code *)

(** ** The three string operations *)

Lemma replace_ws_idem s :
  (forall b, replace_ws_from false (replace_ws_from b s)
             = replace_ws_from b s)
  /\ replace_ws_from true (replace_ws_from true s) = replace_ws_from true s.
Proof.
  induction s as [|c s [IH1 IH2]]; [split; [intros b|]; reflexivity|].
  assert (Hsp : is_space SPACE = true) by reflexivity.
  split; [intros b|]; cbn [replace_ws_from]; destruct (is_space c) eqn:Hc.
  - destruct b; [apply IH1|].
    cbn [replace_ws_from]. rewrite Hsp. now rewrite IH2.
  - cbn [replace_ws_from]. rewrite Hc. now rewrite IH1.
  - exact IH2.
  - cbn [replace_ws_from]. rewrite Hc. now rewrite IH1.
Qed.

(** X1: [replace(/\s+/g, " ")] is idempotent, never lengthens the string,
    and leaves the plain space as the only white space. *)
Theorem replace_whitespace_idempotent (s : jsstring) :
  replace_whitespace (replace_whitespace s) = replace_whitespace s
  /\ length (replace_whitespace s) <= length s
  /\ plain_spaces (replace_whitespace s).
Proof.
  unfold replace_whitespace. split; [apply replace_ws_idem|].
  split; [apply replace_ws_length | apply replace_ws_spaces].
Qed.

(** X2: one scan of [replace(/\b(Show more|Show less)\b/g, "")] is enough:
    a second scan changes nothing, and the strings the scan leaves
    unchanged are exactly those without a word-bounded token. *)
Theorem replace_tokens_idempotent (s : jsstring) :
  replace_tokens (replace_tokens s) = replace_tokens s
  /\ (replace_tokens s = s <-> token_free s = true).
Proof.
  assert (F : token_free (replace_tokens s) = true)
    by apply remove_token_free.
  split; [now apply replace_tokens_fixed|].
  split; [intros E; now rewrite E in F | apply replace_tokens_fixed].
Qed.

Lemma trimEnd_ends_clean s : ends_clean (trimEnd s) = true.
Proof.
  unfold ends_clean, trimEnd. rewrite rev_involutive.
  apply trimStart_clean.
Qed.

Lemma trimEnd_fixed s : ends_clean s = true -> trimEnd s = s.
Proof.
  unfold ends_clean, trimEnd. intros H.
  rewrite (trimStart_fixed _ H). apply rev_involutive.
Qed.

(** X3: [trim()] cuts white space, and only white space, off the two ends:
    the input is the result between two runs of white space, the result
    neither starts nor ends with white space, and a string that neither
    starts nor ends with white space is returned as it is. *)
Theorem trim_cuts_both_ends (s : jsstring) :
  (exists l r,
     s = l ++ trim s ++ r
     /\ forallb is_space l = true /\ forallb is_space r = true)
  /\ starts_clean (trim s) = true
  /\ ends_clean (trim s) = true
  /\ (starts_clean s = true -> ends_clean s = true -> trim s = s).
Proof.
  unfold trim. split; [|split; [|split]].
  - destruct (trimStart_split s) as (l & E1 & Hl).
    destruct (trimEnd_split (trimStart s)) as (r & E2 & Hr).
    exists l, r. split; [|now split].
    rewrite E1 at 1. now rewrite E2 at 1.
  - apply trimEnd_clean, trimStart_clean.
  - apply trimEnd_ends_clean.
  - intros H1 H2. rewrite (trimStart_fixed _ H1). now apply trimEnd_fixed.
Qed.

Lemma trim_cuts_both_ends_witness :
  trim (js "Senior dev") = js "Senior dev".
Proof.
  apply (proj2 (proj2 (proj2 (trim_cuts_both_ends (js "Senior dev")))));
    reflexivity.
Defined.

(** ** The description clean-up as a whole *)

Lemma normalize_idempotent_collapsed s :
  replace_whitespace (normalizeDescription s) = normalizeDescription s ->
  normalizeDescription (normalizeDescription s) = normalizeDescription s.
Proof.
  intros H. unfold normalizeDescription at 1. rewrite H.
  rewrite (replace_tokens_fixed _ (normalize_token_free s)).
  unfold normalizeDescription. apply trim_idempotent.
Qed.

Lemma normalize_length s : length (normalizeDescription s) <= length s.
Proof.
  unfold normalizeDescription.
  etransitivity; [apply trim_length|].
  etransitivity; [apply remove_from_length|].
  apply replace_ws_length.
Qed.

Lemma normalize_no_line_feed s : ~ In LF (normalizeDescription s).
Proof.
  intros K. pose proof (normalize_spaces s) as P.
  unfold plain_spaces in P. rewrite Forall_forall in P.
  specialize (P LF K eq_refl). discriminate P.
Qed.

(** X4: a normalized description never starts or ends with white space,
    holds no white space other than the plain space (so no line feed, tab
    or no-break space), and is never longer than the raw text. *)
Theorem normalize_output_shape (s : jsstring) :
  starts_clean (normalizeDescription s) = true
  /\ ends_clean (normalizeDescription s) = true
  /\ plain_spaces (normalizeDescription s)
  /\ ~ In LF (normalizeDescription s)
  /\ length (normalizeDescription s) <= length s.
Proof.
  pose proof (normalize_spaces s) as P.
  split; [|split; [|split; [exact P|split]]].
  - apply trimEnd_clean, trimStart_clean.
  - apply trimEnd_ends_clean.
  - intros K. unfold plain_spaces in P. rewrite Forall_forall in P.
    specialize (P LF K eq_refl). discriminate P.
  - unfold normalizeDescription.
    etransitivity; [apply trim_length|].
    etransitivity; [apply remove_from_length|].
    apply replace_ws_length.
Qed.

Lemma normalize_shrinks_or_fixed s :
  normalizeDescription (normalizeDescription s) = normalizeDescription s
  \/ length (normalizeDescription (normalizeDescription s))
     < length (normalizeDescription s).
Proof.
  destruct (Nat.eq_dec
              (length (replace_whitespace (normalizeDescription s)))
              (length (normalizeDescription s))) as [E|E].
  - left. apply normalize_idempotent_collapsed.
    now apply replace_ws_same_length; [apply normalize_spaces|].
  - right. unfold normalizeDescription at 1.
    pose proof (trim_length
                  (replace_tokens
                     (replace_whitespace (normalizeDescription s)))).
    pose proof (remove_from_length
                  (replace_whitespace (normalizeDescription s)) 0 false).
    pose proof (replace_ws_length (normalizeDescription s) false).
    unfold replace_tokens, replace_whitespace in *. lia.
Qed.

Lemma iter_fixed (f : jsstring -> jsstring) x k :
  f x = x -> Nat.iter k f x = x.
Proof. intros E. induction k as [|k IH]; simpl; congruence. Qed.

Lemma normalize_iter_fixed n : forall s,
  length (normalizeDescription s) <= n ->
  normalizeDescription
    (Nat.iter n normalizeDescription (normalizeDescription s))
  = Nat.iter n normalizeDescription (normalizeDescription s).
Proof.
  induction n as [|n IH]; intros s L.
  - simpl. destruct (normalizeDescription s); [reflexivity|simpl in L; lia].
  - destruct (normalize_shrinks_or_fixed s) as [E|E].
    + now rewrite (iter_fixed normalizeDescription _ (S n) E).
    + rewrite Nat.iter_succ_r. apply IH. lia.
Qed.

(** X5: applying the clean-up again either changes nothing or gives a
    strictly shorter text, so repeating it reaches a fixed point: after
    at most [length s + 1] applications a further one changes nothing. *)
Theorem normalize_reaches_fixed_point (s : jsstring) :
  (normalizeDescription (normalizeDescription s) = normalizeDescription s
   \/ length (normalizeDescription (normalizeDescription s))
      < length (normalizeDescription s))
  /\ normalizeDescription
       (Nat.iter (S (length s)) normalizeDescription s)
     = Nat.iter (S (length s)) normalizeDescription s.
Proof.
  split; [apply normalize_shrinks_or_fixed|].
  rewrite Nat.iter_succ_r. apply normalize_iter_fixed.
  apply normalize_length.
Qed.

(** ** Property assignment and lookup *)







(** ** Reading an exported document back *)

Lemma split_from_app sep x : forall cur rest,
  ~ In sep x ->
  split_from sep cur (x ++ rest) = split_from sep (rev x ++ cur) rest.
Proof.
  induction x as [|c x IH]; intros cur rest H; [reflexivity|].
  simpl. destruct (N.eqb_spec c sep) as [E|E].
  - exfalso. apply H. now left.
  - rewrite IH; [|intros K; apply H; now right].
    now rewrite <- app_assoc.
Qed.

Lemma split_join sep x l :
  Forall (fun y => ~ In sep y) (x :: l) ->
  split_on sep (join [sep] (x :: l)) = x :: l.
Proof.
  revert x. induction l as [|y l IH]; intros x H; unfold split_on in *.
  - simpl. rewrite <- (app_nil_r x) at 1.
    rewrite split_from_app; [|now inversion H]. simpl.
    now rewrite app_nil_r, rev_involutive.
  - inversion H as [|? ? Hx Hl]; subst.
    change (join [sep] (x :: y :: l)) with (x ++ sep :: join [sep] (y :: l)).
    rewrite split_from_app by exact Hx. simpl.
    rewrite N.eqb_refl, app_nil_r, rev_involutive. f_equal. now apply IH.
Qed.

Lemma convertToCsv_job_records first rest :
  Forall is_job_record (first :: rest) ->
  convertToCsv (first :: rest)
  = Ok (join [LF] (csvHeader :: map quoted_values (first :: rest))).
Proof.
  intros H. rewrite convertToCsv_rows.
  rewrite (keys_job_record first) by now inversion H.
  do 3 f_equal. apply map_ext_in. intros o Ho.
  apply row_text_job_record. rewrite Forall_forall in H. now apply H.
Qed.

Lemma quoted_value_comma_free v :
  ~ In COMMA v -> ~ In COMMA ([QUOTE] ++ v ++ [QUOTE]).
Proof.
  intros H K. apply in_app_or in K. destruct K as [[K|[]]|K];
    [discriminate|].
  apply in_app_or in K. destruct K as [K|[K|[]]];
    [contradiction | discriminate].
Qed.

Lemma split_quoted_values o :
  is_job_record o -> comma_free_values o ->
  split_on COMMA (quoted_values o)
  = map (fun kv => [QUOTE] ++ snd kv ++ [QUOTE]) o.
Proof.
  intros (t & c & l & d & ->) H. unfold quoted_values.
  apply (split_join COMMA).
  unfold comma_free_values in H. rewrite Forall_forall in *.
  intros y Hy.
  change (In y (map (fun kv => [QUOTE] ++ snd kv ++ [QUOTE])
                  (jobRecord t c l d))) in Hy.
  apply in_map_iff in Hy. destruct Hy as (kv & <- & Hkv).
  now apply quoted_value_comma_free, H.
Qed.

(** X7: for job records whose values hold neither a comma nor a line
    feed, the exported document reads back: cut at line feeds and then at
    commas, it gives the four field names followed, record by record, by
    the four values between double quotes. *)
Theorem export_reads_back (data : list object) :
  data <> [] ->
  Forall is_job_record data ->
  Forall single_line_values data ->
  Forall comma_free_values data ->
  exists doc,
    convertToCsv data = Ok doc
    /\ map (split_on COMMA) (lines doc)
       = fieldNames
         :: map (map (fun kv => [QUOTE] ++ snd kv ++ [QUOTE])) data.
Proof.
  intros Hne Hjob Hlf Hcomma. destruct data as [|first rest]; [congruence|].
  eexists. split; [now apply convertToCsv_job_records|].
  rewrite lines_join.
  - rewrite map_cons. f_equal. rewrite map_map. apply map_ext_in.
    intros o Ho. rewrite Forall_forall in Hjob, Hcomma.
    now apply split_quoted_values; [apply Hjob | apply Hcomma].
  - constructor; [vm_compute; intuition discriminate|].
    rewrite Forall_forall in *. intros y Hy.
    apply in_map_iff in Hy. destruct Hy as (o & <- & Ho).
    now apply quoted_values_single_line, Hlf.
Qed.

Lemma export_reads_back_witness :
  exists doc,
    convertToCsv [jobRecord (js "Dev") (js "Acme") (js "Oslo") (js "Build")]
    = Ok doc
    /\ map (split_on COMMA) (lines doc)
       = [ fieldNames;
           [ [QUOTE] ++ js "Dev" ++ [QUOTE]; [QUOTE] ++ js "Acme" ++ [QUOTE];
             [QUOTE] ++ js "Oslo" ++ [QUOTE];
             [QUOTE] ++ js "Build" ++ [QUOTE] ] ].
Proof.
  apply (export_reads_back
           [jobRecord (js "Dev") (js "Acme") (js "Oslo") (js "Build")]).
  - discriminate.
  - repeat constructor. now repeat eexists.
  - repeat constructor; vm_compute; intuition discriminate.
  - repeat constructor; vm_compute; intuition discriminate.
Defined.

(** ** [scrapeJobDetails] in closed form *)

Lemma find_all_false {A} (f : A -> bool) l :
  (forall x, In x l -> f x = false) -> find f l = None.
Proof.
  induction l as [|a l IH]; intros H; [reflexivity|]. simpl.
  rewrite (H a) by now left. apply IH. intros x Hx. apply H. now right.
Qed.

Lemma complete_first_missing page :
  complete page <-> first_missing page = None.
Proof.
  unfold complete, first_missing. split.
  - intros H. apply find_all_false. intros sel Hsel.
    specialize (H sel Hsel). now destruct (page sel).
  - intros H sel Hsel E.
    pose proof (find_none _ _ H sel Hsel) as K. cbv beta in K.
    now rewrite E in K.
Qed.

Lemma scrapeJobDetails_closed_form_eq (url : jsstring) (w : world) (st : state) :
  scrapeJobDetails url w st
  = match serve w url with
    | None => (Throw (NavigationError url), st)
    | Some page =>
        match first_missing page with
        | Some sel => (Throw (NoElementError sel), loaded st url page)
        | None => (Ok (record_of page), loaded st url page)
        end
    end.
Proof.
  unfold scrapeJobDetails, bind, page_goto, page_waitForTimeout, emit, loaded.
  destruct (serve w url) as [page|]; [|reflexivity].
  cbn [fill_fields Object_entries selectors].
  unfold bind, page_eval, ret, first_missing, record_of, first_text.
  cbn [current trace selectors map snd find].
  destruct (page (js "h1.topcard__title")) as [|e1 ?]; [reflexivity|].
  cbn [current].
  destruct (page (js "[href^='https://www.linkedin.com/company/']"))
    as [|e2 ?]; [reflexivity|].
  cbn [current].
  destruct (page (js ".topcard__flavor.topcard__flavor--bullet"))
    as [|e3 ?]; [reflexivity|].
  cbn [current].
  destruct (page (js "section.show-more-less-html")) as [|e4 ?];
    reflexivity.
Qed.

(** X8: a call navigates, waits, and then either fails on the first
    selector (in the order title, company, location, description) that
    matches nothing, the page staying loaded, or returns the record made
    of the trimmed text of the first match of each selector, with the
    description normalized; a failed navigation changes nothing. *)
Theorem scrapeJobDetails_closed_form (url : jsstring) (w : world) (st : state) :
  scrapeJobDetails url w st
  = match serve w url with
    | None => (Throw (NavigationError url), st)
    | Some page =>
        match first_missing page with
        | Some sel => (Throw (NoElementError sel), loaded st url page)
        | None => (Ok (record_of page), loaded st url page)
        end
    end.
Proof.
  unfold scrapeJobDetails, bind, page_goto, page_waitForTimeout, emit, loaded.
  destruct (serve w url) as [page|]; [|reflexivity].
  cbn [fill_fields Object_entries selectors].
  unfold bind, page_eval, ret, first_missing, record_of, first_text.
  cbn [current trace selectors map snd find].
  destruct (page (js "h1.topcard__title")) as [|e1 ?]; [reflexivity|].
  cbn [current].
  destruct (page (js "[href^='https://www.linkedin.com/company/']"))
    as [|e2 ?]; [reflexivity|].
  cbn [current].
  destruct (page (js ".topcard__flavor.topcard__flavor--bullet"))
    as [|e3 ?]; [reflexivity|].
  cbn [current].
  destruct (page (js "section.show-more-less-html")) as [|e4 ?];
    reflexivity.
Qed.

Lemma scrapeJobDetails_complete url w st page :
  serve w url = Some page -> complete page ->
  scrapeJobDetails url w st = (Ok (record_of page), loaded st url page).
Proof.
  intros Hs Hc. rewrite scrapeJobDetails_closed_form_eq, Hs.
  apply complete_first_missing in Hc. now rewrite Hc.
Qed.

Lemma first_text_trimmed page sel : trim (first_text page sel) = first_text page sel.
Proof.
  unfold first_text. destruct (page sel); [reflexivity|].
  apply trim_idempotent.
Qed.

Lemma normalize_trimmed s : trim (normalizeDescription s) = normalizeDescription s.
Proof. unfold normalizeDescription. apply trim_idempotent. Qed.

(** X9: every record a call returns has its four values free of leading
    and trailing white space, and its description holds no white space
    but plain spaces (hence no line feed) and no word-bounded token. *)
Theorem extracted_fields_are_clean
    (url : jsstring) (w : world) (st st' : state) (job : object) :
  scrapeJobDetails url w st = (Ok job, st') ->
  exists t c l d,
    job = jobRecord t c l d
    /\ trim t = t /\ trim c = c /\ trim l = l /\ trim d = d
    /\ plain_spaces d /\ ~ In LF d /\ token_free d = true.
Proof.
  rewrite scrapeJobDetails_closed_form_eq.
  destruct (serve w url) as [page|]; [|discriminate].
  destruct (first_missing page); [discriminate|].
  intros H. injection H as <- _. unfold record_of.
  do 4 eexists. split; [reflexivity|].
  repeat split; try apply first_text_trimmed.
  - apply normalize_trimmed.
  - apply normalize_spaces.
  - apply normalize_no_line_feed.
  - apply normalize_token_free.
Qed.

Lemma extracted_fields_are_clean_witness :
  exists t c l d,
    record_of (detailPage " Dev " "Acme" "Oslo"
                 "Build   things Show more Show less")
    = jobRecord t c l d
    /\ trim t = t /\ trim c = c /\ trim l = l /\ trim d = d
    /\ plain_spaces d /\ ~ In LF d /\ token_free d = true.
Proof.
  apply (extracted_fields_are_clean (js "u1") world_two initial
           (loaded initial (js "u1")
              (detailPage " Dev " "Acme" "Oslo"
                 "Build   things Show more Show less"))).
  reflexivity.
Defined.

(** ** The extraction loop, link by link *)

Lemma scrapeAll_app l1 : forall l2 jobDetails w st,
  scrapeAll (l1 ++ l2) jobDetails w st
  = match scrapeAll l1 jobDetails w st with
    | (Ok jobs, st') => scrapeAll l2 jobs w st'
    | (Throw e, st') => (Throw e, st')
    end.
Proof.
  induction l1 as [|url l1 IH]; intros l2 acc w st; [reflexivity|].
  simpl app. rewrite !scrapeAll_step.
  destruct (scrapeJobDetails url w st) as [[details|e] st1]; [|reflexivity].
  apply IH.
Qed.

Lemma trace_loaded st url page :
  trace (loaded st url page) = trace st ++ visit_events url.
Proof. unfold loaded, visit_events. cbn [trace]. now rewrite <- app_assoc. Qed.

Lemma last_default {A} (l : list A) x a b :
  last (x :: l) a = last (x :: l) b.
Proof.
  revert x. induction l as [|y l IH]; intros x; [reflexivity|].
  change (last (y :: l) a = last (y :: l) b). apply IH.
Qed.

Lemma scrapeAll_complete w links pages :
  all_complete w links pages ->
  forall jobDetails st,
    scrapeAll links jobDetails w st
    = (Ok (jobDetails ++ map record_of pages),
       State (last pages (current st))
             (trace st ++ flat_map visit_events links)).
Proof.
  induction 1 as [|url page links pages [Hs Hc] Hall IH]; intros acc st.
  - simpl. rewrite !app_nil_r. now destruct st.
  - rewrite scrapeAll_step, (scrapeJobDetails_complete url w st page Hs Hc).
    rewrite IH, trace_loaded, <- !app_assoc. cbn [loaded current].
    f_equal. f_equal.
    destruct pages as [|d pages]; [reflexivity|].
    change (last (page :: d :: pages) (current st))
      with (last (d :: pages) (current st)).
    apply last_default.
Qed.

(** X10: when every link is served a complete page, the loop returns one
    record per link, in link order and with repeated links repeated,
    after the records it was given, and its trace is the visits in that
    order. *)
Theorem loop_collects_in_order
    (w : world) (links : list jsstring) (pages : list document)
    (jobDetails : list object) (st : state) :
  all_complete w links pages ->
  scrapeAll links jobDetails w st
  = (Ok (jobDetails ++ map record_of pages),
     State (last pages (current st))
           (trace st ++ flat_map visit_events links))
  /\ length (map record_of pages) = length links.
Proof.
  intros H. split; [now apply scrapeAll_complete|].
  rewrite length_map. symmetry. now apply (Forall2_length H).
Qed.

Lemma loop_collects_in_order_witness :
  scrapeAll [js "u2"; js "u1"; js "u2"] [] world_two initial
  = (Ok (map record_of
           [ detailPage "Ops" "Bolt" "Rome" "Run things";
             detailPage " Dev " "Acme" "Oslo"
               "Build   things Show more Show less";
             detailPage "Ops" "Bolt" "Rome" "Run things" ]),
     State (detailPage "Ops" "Bolt" "Rome" "Run things")
           (flat_map visit_events [js "u2"; js "u1"; js "u2"])).
Proof.
  apply (loop_collects_in_order world_two
           [js "u2"; js "u1"; js "u2"]
           [ detailPage "Ops" "Bolt" "Rome" "Run things";
             detailPage " Dev " "Acme" "Oslo"
               "Build   things Show more Show less";
             detailPage "Ops" "Bolt" "Rome" "Run things" ] [] initial).
  repeat constructor;
    intros sel [<- | [<- | [<- | [<- | []]]]]; discriminate.
Defined.

(** X11: the loop stops at the first link whose page lacks an element:
    the links before it and the failing link are visited, the links after
    it are never visited, the error names the missing selector, and the
    records collected so far are not returned. *)
Theorem loop_stops_at_first_failure
    (w : world) (good rest : list jsstring) (pages : list document)
    (bad : jsstring) (page : document) (sel : jsstring)
    (jobDetails : list object) (st : state) :
  all_complete w good pages ->
  serve w bad = Some page ->
  first_missing page = Some sel ->
  scrapeAll (good ++ bad :: rest) jobDetails w st
  = (Throw (NoElementError sel),
     State page (trace st ++ flat_map visit_events (good ++ [bad]))).
Proof.
  intros Hgood Hs Hm.
  rewrite scrapeAll_app, (scrapeAll_complete w good pages Hgood).
  rewrite scrapeAll_step, scrapeJobDetails_closed_form_eq, Hs, Hm.
  unfold loaded. cbn [trace].
  rewrite flat_map_app. cbn [flat_map visit_events].
  now rewrite app_nil_r, <- !app_assoc.
Qed.

Lemma loop_stops_at_first_failure_witness :
  scrapeAll ([js "u1"] ++ js "u2" :: [js "u1"]) [] world_missing initial
  = (Throw (NoElementError
              (js "[href^='https://www.linkedin.com/company/']")),
     State (page_of [(js "h1.topcard__title", [text_element "Ops"])])
           (flat_map visit_events ([js "u1"] ++ [js "u2"]))).
Proof.
  apply (loop_stops_at_first_failure world_missing
           [js "u1"] [js "u1"]
           [detailPage " Dev " "Acme" "Oslo" "Build things"]
           (js "u2")
           (page_of [(js "h1.topcard__title", [text_element "Ops"])])
           (js "[href^='https://www.linkedin.com/company/']") [] initial).
  - repeat constructor;
      intros sel [<- | [<- | [<- | [<- | []]]]]; discriminate.
  - reflexivity.
  - reflexivity.
Defined.

(** ** Whole runs *)



Lemma completed_run_events w :
  outcome w = Ok tt ->
  exists pre jobDetails post,
    events w = pre ++ [BrowserClosed; LoaderCleared] ++ post
    /\ forallb before_close pre = true
    /\ export_events w jobDetails post.
Proof.
  intros H. pose proof (outcome_events w) as R.
  destruct (run_cases w)
    as [(e & evs & E & _) | (pre & jobs & post & E & B & X)];
    rewrite E in R; injection R as Ho He; [congruence|].
  exists pre, jobs, post. now rewrite <- He.
Qed.

Lemma failed_run_events w e :
  outcome w = Throw e -> forallb before_close (events w) = true.
Proof.
  intros H. pose proof (outcome_events w) as R.
  destruct (run_cases w)
    as [(e' & evs & E & B) | (pre & jobs & post & E & _)];
    rewrite E in R; injection R as Ho He; [|congruence].
  now rewrite <- He.
Qed.

Lemma outcome_cases w : outcome w = Ok tt \/ exists e, outcome w = Throw e.
Proof. destruct (outcome w) as [[]|e]; [now left | right; now exists e]. Qed.

(** X13: if a run writes a file, the file is "jobsData.csv", the run
    completes, and the write comes right after the browser has been
    closed and the loader cleared and right before the success message,
    which ends the run; before that there are only start-up and browsing
    events, so it is the only write. *)
Theorem file_written_last (w : world) (path data : jsstring) :
  In (FileWritten path data) (events w) ->
  path = outputPath
  /\ outcome w = Ok tt
  /\ exists pre,
       events w
       = pre ++ [ BrowserClosed; LoaderCleared; FileWritten path data;
                  ConsoleLog successMessage ]
       /\ forallb before_close pre = true.
Proof.
  intros H.
  destruct (outcome_cases w) as [O | [e O]].
  - destruct (completed_run_events w O) as (pre & jobs & post & E & B & X).
    rewrite E in H. apply in_app_or in H. destruct H as [H|H];
      [now apply (before_close_excludes pre _ B) in H|].
    destruct H as [H|[H|H]]; try discriminate.
    destruct X as [(csv & _ & _ & ->) | (e & ->)].
    + destruct H as [H|[H|[]]]; [|discriminate].
      injection H as <- <-. repeat split; [exact O|].
      now exists pre.
    + destruct H as [H|[]]. discriminate.
  - now apply (before_close_excludes _ _ (failed_run_events w e O)) in H.
Qed.

Lemma file_written_last_witness :
  exists data,
    In (FileWritten outputPath data) (events world_two)
    /\ outcome world_two = Ok tt.
Proof.
  eexists. split; [vm_compute; do 10 right; left; reflexivity|].
  eapply (file_written_last world_two).
  vm_compute. do 10 right. left. reflexivity.
Defined.

(** X14: the loader interval is started first in every run and is cleared
    exactly in the runs that complete; a run that ends on an uncaught
    error leaves the interval running. *)
Theorem loader_cleared_iff_completed (w : world) :
  (exists evs, events w = LoaderStarted :: evs)
  /\ (In LoaderCleared (events w) <-> outcome w = Ok tt).
Proof.
  split.
  - unfold events. rewrite run_unfold.
    destruct (launch_ok w); [|now eexists].
    destruct (serve w searchUrl) as [d|]; [|now eexists].
    destruct (scrapeAll (map href (d linkSelector)) [] w (State d prelude))
      as [[jobs|e] st] eqn:S;
      apply scrapeAll_trace in S; destruct S as (evs & E & _);
      cbn [trace] in E.
    + destruct (exportJobs_cases jobs w
                  (State (current st)
                     ((trace st ++ [BrowserClosed]) ++ [LoaderCleared])))
        as [(csv & _ & _ & ->) | (e & _ & ->)];
        cbn [snd trace]; rewrite E; now eexists.
    + cbn [snd]. rewrite E. now eexists.
  - destruct (outcome_cases w) as [O | [e O]].
    + split; [now intros _ | intros _].
      destruct (completed_run_events w O) as (pre & jobs & post & E & _).
      rewrite E. apply in_or_app. right. right. now left.
    + split; [|rewrite O; discriminate].
      intros H.
      now apply (before_close_excludes _ _ (failed_run_events w e O)) in H.
Qed.

(** X15: the success message is printed exactly when a file has been
    written, and a run that ends on an uncaught error prints nothing on
    the console. *)
Theorem console_reports_the_export (w : world) :
  (In (ConsoleLog successMessage) (events w)
   <-> exists data, In (FileWritten outputPath data) (events w))
  /\ (forall e msg,
        outcome w = Throw e ->
        ~ In (ConsoleLog msg) (events w)
        /\ ~ In (ConsoleError msg) (events w)).
Proof.
  split.
  - destruct (outcome_cases w) as [O | [e O]].
    + destruct (completed_run_events w O) as (pre & jobs & post & E & B & X).
      rewrite E. destruct X as [(csv & _ & _ & ->) | (e & ->)].
      * split; intros _.
        -- exists csv. apply in_or_app. right. do 2 right. now left.
        -- apply in_or_app. right. do 3 right. now left.
      * split.
        -- intros H. apply in_app_or in H. destruct H as [H|H];
             [now apply (before_close_excludes pre _ B) in H|].
           destruct H as [H|[H|[H|[]]]]; discriminate.
        -- intros [data H]. apply in_app_or in H. destruct H as [H|H];
             [now apply (before_close_excludes pre _ B) in H|].
           destruct H as [H|[H|[H|[]]]]; discriminate.
    + pose proof (failed_run_events w e O) as B. split.
      * intros H. now apply (before_close_excludes _ _ B) in H.
      * intros [data H]. now apply (before_close_excludes _ _ B) in H.
  - intros e msg O. pose proof (failed_run_events w e O) as B.
    split; intros H; now apply (before_close_excludes _ _ B) in H.
Qed.

Lemma console_reports_the_export_witness :
  ~ In (ConsoleError
          (failureMessage
             (NoElementError
                (js "[href^='https://www.linkedin.com/company/']"))))
       (events world_missing).
Proof.
  apply (proj2 (console_reports_the_export world_missing)
           (NoElementError
              (js "[href^='https://www.linkedin.com/company/']"))).
  reflexivity.
Defined.

Lemma scrapeAll_visits jobLinks : forall jobDetails w st r st',
  scrapeAll jobLinks jobDetails w st = (r, st') ->
  exists k,
    k <= length jobLinks
    /\ trace st' = trace st ++ flat_map visit_events (firstn k jobLinks)
    /\ (forall jobs, r = Ok jobs -> k = length jobLinks).
Proof.
  induction jobLinks as [|url rest IH]; intros acc w st r st' H.
  - injection H as <- <-. exists 0. simpl. rewrite app_nil_r. auto.
  - rewrite scrapeAll_step, scrapeJobDetails_closed_form_eq in H.
    destruct (serve w url) as [page|].
    + destruct (first_missing page) as [sel|].
      * injection H as <- <-. exists 1. rewrite trace_loaded.
        cbn [firstn flat_map length]. rewrite app_nil_r.
        repeat split; [lia | discriminate].
      * apply IH in H. destruct H as (k & L & E & F).
        exists (S k). rewrite E, trace_loaded, <- app_assoc.
        cbn [firstn flat_map length]. repeat split; [lia|].
        intros jobs J. now rewrite (F jobs J).
    + injection H as <- <-. exists 0. simpl. rewrite app_nil_r.
      repeat split; [lia | discriminate].
Qed.

(** X16: after the search page, a run navigates only to the collected
    links, in the order collected, each navigation followed by the
    5000 ms wait; it stops at some link (all of them when the run
    completes) and nothing but the closing events comes after. *)
Theorem run_visits_links_in_order (w : world) (d : document) :
  launch_ok w = true ->
  serve w searchUrl = Some d ->
  exists k tail,
    k <= length (map href (d linkSelector))
    /\ events w
       = prelude
         ++ flat_map visit_events (firstn k (map href (d linkSelector)))
         ++ tail
    /\ forallb (fun e => negb (browsing e)) tail = true
    /\ (outcome w = Ok tt -> k = length (map href (d linkSelector))).
Proof.
  intros Hl Hd. unfold events, outcome. rewrite run_unfold, Hl, Hd.
  destruct (scrapeAll (map href (d linkSelector)) [] w (State d prelude))
    as [[jobs|e] st] eqn:S;
    apply scrapeAll_visits in S; destruct S as (k & L & E & F);
    cbn [trace] in E; exists k.
  - destruct (exportJobs_cases jobs w
                (State (current st)
                   ((trace st ++ [BrowserClosed]) ++ [LoaderCleared])))
      as [(csv & _ & _ & ->) | (e & _ & ->)]; cbn [fst snd trace].
    + exists [BrowserClosed; LoaderCleared; FileWritten outputPath csv;
              ConsoleLog successMessage].
      rewrite E. repeat split; [exact L | now rewrite <- !app_assoc|].
      intros _. now apply (F jobs).
    + exists [BrowserClosed; LoaderCleared; ConsoleError (failureMessage e)].
      rewrite E. repeat split; [exact L | now rewrite <- !app_assoc|].
      intros _. now apply (F jobs).
  - exists []. cbn [fst snd]. rewrite E, app_nil_r.
    repeat split; [exact L | discriminate].
Qed.

Lemma run_visits_links_in_order_witness :
  exists k tail,
    k <= 2
    /\ events world_missing
       = prelude ++ flat_map visit_events (firstn k [js "u1"; js "u2"])
         ++ tail
    /\ forallb (fun e => negb (browsing e)) tail = true
    /\ (outcome world_missing = Ok tt -> k = 2).
Proof.
  apply (run_visits_links_in_order world_missing
           (searchPage ["u1"; "u2"]%string)); reflexivity.
Defined.

(** ** The loader animation *)

Lemma loader_output_nth ticks : forall i k,
  i < 4 -> k < ticks ->
  nth_error (loader_output ticks i) k
  = Some (fst (loader_callback ((i + k) mod 4))).
Proof.
  induction ticks as [|n IH]; intros i k Hi Hk; [lia|].
  cbn [loader_output loader_callback].
  destruct k as [|k]; cbn [nth_error].
  - rewrite Nat.add_0_r, Nat.mod_small by exact Hi. reflexivity.
  - change (length loader) with 4.
    rewrite IH; [|apply Nat.mod_upper_bound; lia | lia].
    rewrite Nat.Div0.add_mod_idemp_l.
    now replace (i + 1 + k) with (i + S k) by lia.
Qed.

(** X17: the counter of the loader never leaves the array: the k-th call
    of the interval callback (counting from 0) writes a carriage return,
    the glyph number [k mod 4] of "|", "/", "-", "\" and the fixed text,
    never "undefined", and leaves the counter at [(k + 1) mod 4]. *)
Theorem loader_cycles (ticks k : nat) :
  k < ticks ->
  nth_error (loader_output ticks 0) k
  = Some ([CR] ++ [nth (k mod 4) [124; 47; 45; 92]%N 0%N] ++ loaderText)
  /\ snd (loader_callback (k mod 4)) = S k mod 4.
Proof.
  intros Hk. split.
  - rewrite loader_output_nth by lia. cbn [Nat.add].
    assert (B : k mod 4 < 4) by (apply Nat.mod_upper_bound; lia).
    destruct (k mod 4) as [|[|[|[|j]]]]; try reflexivity. lia.
  - cbn [loader_callback snd]. change (length loader) with 4.
    rewrite Nat.Div0.add_mod_idemp_l.
    now replace (k + 1) with (S k) by lia.
Qed.

Lemma loader_cycles_witness :
  nth_error (loader_output 7 0) 5
  = Some ([CR] ++ [47%N] ++ loaderText).
Proof. apply (loader_cycles 7 5). lia. Defined.
